(** * Bytecode scanner of proxy-wasm-cpp-host: [src/common/bytecode_util.cc]

    A shallow embedding of [BytecodeUtil] (header check, varint decoder and
    the four section scanners) and the properties of it that the
    specification states.

    Conventions of the embedding.
    - A [std::string_view] over the module is the list of its bytes; a byte
      is a [Z] in [0, 256).  The source reads bytes through [char]; every
      use is a comparison with a small constant or a mask with [0x7f] /
      [0x80], which give the same answer for signed and unsigned [char].
    - A [const char *] into the module is the offset from [bytecode.data()],
      a [Z]; [end] is the offset [bytecode.size()].
    - [uint32_t] arithmetic wraps modulo [2^32], [size_t] modulo [2^64].
    - A function with reference parameters takes their value on entry and
      returns their value on exit next to the [bool] it returns. *)

From Stdlib Require Import ZArith List Lia Bool String Ascii.
From stdpp Require Import base option list gmap.
Import ListNotations.
Local Open Scope Z_scope.

(** ** Machine arithmetic *)

Definition wrap32 (z : Z) : Z := z mod 2 ^ 32.
Definition wrap64 (z : Z) : Z := z mod 2 ^ 64.

(** [static_cast<uint32_t>(-1)] *)
Definition UINT32_MAX : Z := 4294967295.

(** [x << s] on a 32-bit operand, reduced to 32 bits.  For [s >= 32] C++
    leaves the result open; the embedding follows the shift instructions of
    x86-64 and AArch64, which take the amount modulo 32.  No statement below
    rests on this reading: where one reaches such a shift, the operand is
    0. *)
Definition shl32 (x s : Z) : Z := wrap32 (Z.shiftl x (s mod 32)).

(** ** Buffers *)

Definition len (l : list Z) : Z := Z.of_nat (length l).

(** [*pos] *)
Definition byte_at (buf : list Z) (pos : Z) : Z := nth (Z.to_nat pos) buf 0.

(** The [n] bytes starting at [pos]: [std::string(pos, n)],
    [std::string_view(pos, n)], [ret.append(pos, pos + n)]. *)
Definition sub (buf : list Z) (pos n : Z) : list Z :=
  take (Z.to_nat n) (drop (Z.to_nat pos) buf).

Fixpoint bytes_eqb (a b : list Z) : bool :=
  match a, b with
  | [], [] => true
  | x :: a', y :: b' => (x =? y) && bytes_eqb a' b'
  | _, _ => false
  end.

Definition bytes_of_string (s : string) : list Z :=
  map (fun c => Z.of_N (N_of_ascii c)) (list_ascii_of_string s).

(** ** [BytecodeUtil::checkWasmHeader] *)

Definition wasm_magic_number : list Z := [0; 97; 115; 109].

Definition checkWasmHeader (bytecode : list Z) : bool :=
  (len bytecode <? 8) || bytes_eqb (sub bytecode 0 4) wasm_magic_number.

(** ** [BytecodeUtil::parseVarint]

    [room] counts the bytes left before [end]: [pos + 1 > end] is [room = 0].
    The result is [None] when the source returns [false]; every caller
    returns [false] itself at once in that case, so the values left in [pos]
    and [ret] are never looked at. *)

Fixpoint parseVarint_from (room : nat) (buf : list Z) (pos shift ret : Z)
  : option (Z * Z) :=
  match room with
  | O => None
  | S room' =>
      let b := byte_at buf pos in
      let ret' := wrap32 (ret + shl32 (Z.land b 127) shift) in
      let shift' := wrap32 (shift + 7) in
      if negb (Z.land b 128 =? 0)
      then parseVarint_from room' buf (pos + 1) shift' ret'
      else if ret' =? UINT32_MAX then None else Some (pos + 1, ret')
  end.

Definition parseVarint (buf : list Z) (pos end_ ret : Z) : option (Z * Z) :=
  parseVarint_from (Z.to_nat (end_ - pos)) buf pos 0 ret.


(** ** The section prologue shared by the scanners

    Lines 38-45, 102-109 and 190-197 of the source are the same text: read
    the section type, decode the section length from zero, check that the
    payload ends inside the buffer.  The result is the type, the offset of
    the payload and its declared length, or [None] for [return false].  The
    subsection loop of [getFunctionNameIndex] (lines 141-145) is the same
    without the first test, which cannot fire under [pos < end]. *)

Definition section_prologue (buf : list Z) (pos end_ : Z) : option (Z * Z * Z) :=
  if pos + 1 >? end_ then None
  else
    let section_type := byte_at buf pos in
    match parseVarint buf (pos + 1) end_ 0 with
    | None => None
    | Some (pos1, section_len) =>
        if pos1 + section_len >? end_ then None
        else Some (section_type, pos1, section_len)
    end.

(** ** [BytecodeUtil::getAbiVersion] *)

(** Modelled from the spec: the enumeration [proxy_wasm::AbiVersion], which
    the host declares outside this file ("values {Unknown, ProxyAbi_0_1_0,
    ProxyAbi_0_2_0, ProxyAbi_0_2_1}"); the constructors carry the names the
    source uses. *)
Inductive AbiVersion : Set :=
  | ProxyWasm_0_1_0
  | ProxyWasm_0_2_0
  | ProxyWasm_0_2_1
  | Unknown.

(** The chain of comparisons of lines 67-76. *)
Definition abi_of_export_name (export_name : list Z) : option AbiVersion :=
  if bytes_eqb export_name (bytes_of_string "proxy_abi_version_0_1_0")
  then Some ProxyWasm_0_1_0
  else if bytes_eqb export_name (bytes_of_string "proxy_abi_version_0_2_0")
  then Some ProxyWasm_0_2_0
  else if bytes_eqb export_name (bytes_of_string "proxy_abi_version_0_2_1")
  then Some ProxyWasm_0_2_1
  else None.

(** The [for] loop of lines 52-82 followed by [return true] of line 83;
    [n] is the number of iterations left.  [ret] is [Unknown] on every exit
    but the three matches. *)
Fixpoint exports_loop (n : nat) (buf : list Z) (pos end_ : Z) : bool * AbiVersion :=
  match n with
  | O => (true, Unknown)
  | S n' =>
      match parseVarint buf pos end_ 0 with
      | None => (false, Unknown)
      | Some (pos1, export_name_size) =>
          if pos1 + export_name_size >? end_ then (false, Unknown)
          else
            let name_begin := pos1 in
            let pos2 := pos1 + export_name_size in
            if pos2 + 1 >? end_ then (false, Unknown)
            else
              let kind := byte_at buf pos2 in
              let pos3 := pos2 + 1 in
              let hit :=
                if kind =? 0
                then abi_of_export_name (sub buf name_begin export_name_size)
                else None in
              match hit with
              | Some v => (true, v)
              | None =>
                  (* the index is decoded on top of [export_name_size] *)
                  match parseVarint buf pos3 end_ export_name_size with
                  | None => (false, Unknown)
                  | Some (pos4, _) => exports_loop n' buf pos4 end_
                  end
              end
      end
  end.

(** The [while] loop of lines 37-87.  [None] stands for an exhausted
    [fuel], which [abi_loop_total] shows not to happen. *)
Fixpoint abi_loop (fuel : nat) (buf : list Z) (pos end_ : Z)
  : option (bool * AbiVersion) :=
  if pos <? end_ then
    match fuel with
    | O => None
    | S fuel' =>
        match section_prologue buf pos end_ with
        | None => Some (false, Unknown)
        | Some (section_type, pos1, section_len) =>
            if section_type =? 7 then
              match parseVarint buf pos1 end_ 0 with
              | None => Some (false, Unknown)
              | Some (pos2, export_vector_size) =>
                  if pos2 + export_vector_size >? end_ then Some (false, Unknown)
                  else Some (exports_loop (Z.to_nat export_vector_size) buf pos2 end_)
              end
            else abi_loop fuel' buf (pos1 + section_len) end_
        end
    end
  else Some (true, Unknown).

Definition getAbiVersion (bytecode : list Z) : option (bool * AbiVersion) :=
  if negb (checkWasmHeader bytecode) then Some (false, Unknown)
  else abi_loop (length bytecode) bytecode 8 (len bytecode).

(** ** [BytecodeUtil::getCustomSection] *)

(** A [std::string_view]: [sv_data] is [None] for a null [data()], else the
    offset of its first byte in the module. *)
Record string_view : Set := mk_sv { sv_data : option Z; sv_size : Z }.

(** [std::string_view x = {}] *)
Definition sv_default : string_view := mk_sv None 0.

Definition sv_empty (v : string_view) : bool := sv_size v =? 0.

(** The bytes a range denotes, which is what comparing two ranges looks at;
    a null range denotes none. *)
Definition sv_bytes (buf : list Z) (v : string_view) : list Z :=
  match sv_data v with
  | None => []
  | Some p => sub buf p (sv_size v)
  end.

Fixpoint custom_loop (fuel : nat) (buf name : list Z) (pos end_ : Z)
    (ret : string_view) : option (bool * string_view) :=
  if pos <? end_ then
    match fuel with
    | O => None
    | S fuel' =>
        match section_prologue buf pos end_ with
        | None => Some (false, ret)
        | Some (section_type, pos1, section_len) =>
            if section_type =? 0 then
              let section_data_start := pos1 in
              match parseVarint buf pos1 end_ 0 with
              | None => Some (false, ret)
              | Some (pos2, section_name_len) =>
                  if pos2 + section_name_len >? end_ then Some (false, ret)
                  else if (section_name_len =? len name)
                          && bytes_eqb (sub buf pos2 section_name_len) name
                  then
                    let pos3 := pos2 + section_name_len in
                    Some (true,
                          mk_sv (Some pos3)
                                (wrap64 (section_data_start + section_len - pos3)))
                  else custom_loop fuel' buf name (section_data_start + section_len)
                                   end_ ret
              end
            else custom_loop fuel' buf name (pos1 + section_len) end_ ret
        end
    end
  else Some (true, ret).

Definition getCustomSection (bytecode name : list Z) (ret : string_view)
  : option (bool * string_view) :=
  if negb (checkWasmHeader bytecode) then Some (false, ret)
  else custom_loop (length bytecode) bytecode name 8 (len bytecode) ret.

(** ** [BytecodeUtil::getFunctionNameIndex] *)

(** [std::unordered_map::insert]: a key that is present keeps its value. *)
Definition umap_insert (k : Z) (v : list Z) (m : gmap Z (list Z)) : gmap Z (list Z) :=
  match m !! k with
  | Some _ => m
  | None => <[k := v]> m
  end.

(** The [for] loop of lines 157-169: the offset reached, or [None] for
    [return false], next to the mapping as it is at that point. *)
Fixpoint namemap_loop (n : nat) (buf : list Z) (pos end_ : Z)
    (ret : gmap Z (list Z)) : option Z * gmap Z (list Z) :=
  match n with
  | O => (Some pos, ret)
  | S n' =>
      match parseVarint buf pos end_ 0 with
      | None => (None, ret)
      | Some (pos1, func_index) =>
          match parseVarint buf pos1 end_ 0 with
          | None => (None, ret)
          | Some (pos2, func_name_size) =>
              if pos2 + func_name_size >? end_ then (None, ret)
              else
                namemap_loop n' buf (pos2 + func_name_size) end_
                  (umap_insert func_index (sub buf pos2 func_name_size) ret)
          end
      end
  end.

(** The [while] loop of lines 140-174. *)
Fixpoint name_loop (fuel : nat) (buf : list Z) (pos end_ : Z)
    (ret : gmap Z (list Z)) : option (bool * gmap Z (list Z)) :=
  if pos <? end_ then
    match fuel with
    | O => None
    | S fuel' =>
        match section_prologue buf pos end_ with
        | None => Some (false, ret)
        | Some (subsection_id, pos1, subsection_size) =>
            if negb (subsection_id =? 1)
            then name_loop fuel' buf (pos1 + subsection_size) end_ ret
            else
              let start := pos1 in
              match parseVarint buf pos1 end_ 0 with
              | None => Some (false, ret)
              | Some (pos2, namemap_vector_size) =>
                  if pos2 + namemap_vector_size >? end_ then Some (false, ret)
                  else
                    match namemap_loop (Z.to_nat namemap_vector_size) buf pos2 end_ ret with
                    | (None, ret') => Some (false, ret')
                    | (Some pos3, ret') =>
                        if negb (start + subsection_size =? pos3)
                        then Some (false, ret')
                        else name_loop fuel' buf pos3 end_ ret'
                    end
              end
        end
    end
  else Some (true, ret).

(** [name_section.data() + name_section.size()] is computed on 64-bit
    pointers; a null [data()] only comes with size zero and is not read. *)
Definition getFunctionNameIndex (bytecode : list Z) (ret : gmap Z (list Z))
  : option (bool * gmap Z (list Z)) :=
  match getCustomSection bytecode (bytes_of_string "name") sv_default with
  | None => None
  | Some (false, _) => Some (false, ret)
  | Some (true, name_section) =>
      if negb (sv_empty name_section) then
        let pos := default 0 (sv_data name_section) in
        let end_ := wrap64 (pos + sv_size name_section) in
        name_loop (length bytecode) bytecode pos end_ ret
      else Some (true, ret)
  end.

(** ** [BytecodeUtil::getStrippedSource] *)

Fixpoint is_prefix (p l : list Z) : bool :=
  match p, l with
  | [], _ => true
  | x :: p', y :: l' => (x =? y) && is_prefix p' l'
  | _ :: _, [] => false
  end.

(** [hay.find(needle)]: the first offset at which [needle] occurs in [hay],
    [None] for [npos]. *)
Fixpoint sv_find (hay needle : list Z) : option Z :=
  if is_prefix needle hay then Some 0
  else match hay with
       | [] => None
       | _ :: hay' => Z.succ <$> sv_find hay' needle
       end.

Definition is_nil (l : list Z) : bool :=
  match l with [] => true | _ => false end.

Fixpoint strip_loop (fuel : nat) (buf : list Z) (pos end_ : Z) (ret : list Z)
  : option (bool * list Z) :=
  if pos <? end_ then
    match fuel with
    | O => None
    | S fuel' =>
        let section_start := pos in
        match section_prologue buf pos end_ with
        | None => Some (false, ret)
        | Some (section_type, pos1, section_len) =>
            if section_type =? 0 then
              let section_data_start := pos1 in
              match parseVarint buf pos1 end_ 0 with
              | None => Some (false, ret)
              | Some (pos2, section_name_len) =>
                  if pos2 + section_name_len >? end_ then Some (false, ret)
                  else
                    let section_name := sub buf pos2 section_name_len in
                    let ret' :=
                      match sv_find section_name (bytes_of_string "precompiled_") with
                      | Some _ =>
                          if is_nil ret then ret ++ sub buf 0 section_start else ret
                      | None => ret
                      end in
                    strip_loop fuel' buf (section_data_start + section_len) end_ ret'
              end
            else
              let pos2 := pos1 + section_len in
              let ret' :=
                if negb (is_nil ret)
                then ret ++ sub buf section_start (pos2 - section_start)
                else ret in
              strip_loop fuel' buf pos2 end_ ret'
        end
    end
  else Some (true, if is_nil ret then buf else ret).

Definition getStrippedSource (bytecode : list Z) (ret : list Z)
  : option (bool * list Z) :=
  if negb (checkWasmHeader bytecode) then Some (false, ret)
  else strip_loop (length bytecode) bytecode 8 (len bytecode) ret.

(** * The binary format, as the specification describes it

    The encoders below are the reference against which the scanners are
    checked: a structurally valid module is the encoding of a header and a
    list of sections. *)

(** Unsigned LEB128 of at most [n] bytes. *)
Fixpoint leb128_n (n : nat) (v : Z) : list Z :=
  match n with
  | O => []
  | S n' => if v <? 128 then [v] else (128 + v mod 128) :: leb128_n n' (v / 128)
  end.

(** The standard encoding of a [u32]: at most five bytes. *)
Definition leb128 (v : Z) : list Z := leb128_n 5 v.

Definition is_u32 (v : Z) : Prop := 0 <= v < 2 ^ 32.


(** Length-prefixed bytes. *)
Definition enc_name (name : list Z) : list Z := leb128 (len name) ++ name.

(** The 8-byte module header: magic number and version field. *)
Definition wasm_header (version : list Z) : list Z := wasm_magic_number ++ version.

Inductive section : Set :=
  | Custom (name data : list Z)
  | Plain (ty : Z) (payload : list Z).

Definition sec_type (s : section) : Z :=
  match s with Custom _ _ => 0 | Plain ty _ => ty end.

Definition sec_payload (s : section) : list Z :=
  match s with Custom name data => enc_name name ++ data | Plain _ p => p end.

Definition enc_section (s : section) : list Z :=
  sec_type s :: leb128 (len (sec_payload s)) ++ sec_payload s.

Definition enc_sections (ss : list section) : list Z := flat_map enc_section ss.

(** A section the scanners can walk over: a non-custom section does not
    carry the custom type, and the payload length is a value the decoder
    returns. *)
Definition wf_section (s : section) : Prop :=
  len (sec_payload s) < UINT32_MAX /\
  match s with Custom _ _ => True | Plain ty _ => ty <> 0 end.

Definition is_custom (s : section) : bool :=
  match s with Custom _ _ => true | Plain _ _ => false end.

Definition custom_named (name : list Z) (s : section) : bool :=
  match s with Custom n _ => bytes_eqb n name | Plain _ _ => false end.

Definition is_precompiled (s : section) : bool :=
  match s with
  | Custom n _ =>
      match sv_find n (bytes_of_string "precompiled_") with
      | Some _ => true
      | None => false
      end
  | Plain _ _ => false
  end.

(** Exports. *)
Record export : Set := mk_export { exp_name : list Z; exp_kind : Z; exp_index : Z }.

Definition enc_export (e : export) : list Z :=
  enc_name (exp_name e) ++ exp_kind e :: leb128 (exp_index e).

Definition export_payload (es : list export) : list Z :=
  leb128 (Z.of_nat (length es)) ++ flat_map enc_export es.

Definition export_section (es : list export) : section := Plain 7 (export_payload es).

(** The ABI version an export announces: a function export under one of the
    three known names. *)
Definition export_abi (e : export) : option AbiVersion :=
  if exp_kind e =? 0 then abi_of_export_name (exp_name e) else None.

Fixpoint first_abi (es : list export) : AbiVersion :=
  match es with
  | [] => Unknown
  | e :: es' =>
      match export_abi e with
      | Some v => v
      | None => first_abi es'
      end
  end.

(** An export the loop gets past: the name length and the index are [u32]
    values, and their sum, which is what the decoder accumulates while it
    skips the index, is not the all-ones value. *)
Definition skippable (e : export) : Prop :=
  len (exp_name e) < UINT32_MAX /\ is_u32 (exp_index e) /\
  wrap32 (len (exp_name e) + exp_index e) <> UINT32_MAX.

(** The name section. *)
Inductive subsection : Set :=
  | FuncNames (pairs : list (Z * list Z))
  | OtherSub (id : Z) (body : list Z).

Definition enc_pair (p : Z * list Z) : list Z := leb128 (fst p) ++ enc_name (snd p).

Definition namemap_body (pairs : list (Z * list Z)) : list Z :=
  leb128 (Z.of_nat (length pairs)) ++ flat_map enc_pair pairs.

Definition sub_id (s : subsection) : Z :=
  match s with FuncNames _ => 1 | OtherSub id _ => id end.

Definition sub_body (s : subsection) : list Z :=
  match s with FuncNames pairs => namemap_body pairs | OtherSub _ body => body end.

Definition enc_subsection (s : subsection) : list Z :=
  sub_id s :: leb128 (len (sub_body s)) ++ sub_body s.

Definition enc_subsections (ss : list subsection) : list Z := flat_map enc_subsection ss.

Definition wf_pair (p : Z * list Z) : Prop := 0 <= fst p < UINT32_MAX.

Definition wf_subsection (s : subsection) : Prop :=
  len (sub_body s) < UINT32_MAX /\
  match s with
  | FuncNames pairs => Forall wf_pair pairs
  | OtherSub id _ => id <> 1
  end.

Definition sub_pairs (s : subsection) : list (Z * list Z) :=
  match s with FuncNames pairs => pairs | OtherSub _ _ => [] end.

(** The mapping after the pairs [ps] went through [insert], in order. *)
Definition insert_pairs (ps : list (Z * list Z)) (m : gmap Z (list Z)) : gmap Z (list Z) :=
  fold_left (fun m p => umap_insert (fst p) (snd p) m) ps m.

(** The name of the first pair of [ps] with index [k]. *)
Fixpoint first_name (k : Z) (ps : list (Z * list Z)) : option (list Z) :=
  match ps with
  | [] => None
  | p :: ps' => if fst p =? k then Some (snd p) else first_name k ps'
  end.

(** The name of the last pair of [ps] with index [k]. *)
Definition last_name (k : Z) (ps : list (Z * list Z)) : option (list Z) :=
  first_name k (rev ps).

(** The offset just past the name of the custom section that follows the
    sections [pre]. *)
Definition custom_data_pos (pre : list section) (name data : list Z) : Z :=
  8 + len (enc_sections pre) + 1 + len (leb128 (len (sec_payload (Custom name data))))
  + len (leb128 (len name)) + len name.


(** Stripping, section by section. *)

Definition is_plain (s : section) : bool := negb (is_custom s).

(** What one iteration does to [ret] on a well-formed section. *)
Definition strip_step (before : list Z) (s : section) (ret : list Z) : list Z :=
  match s with
  | Custom _ _ =>
      if is_precompiled s then (if is_nil ret then ret ++ before else ret) else ret
  | Plain _ _ => if negb (is_nil ret) then ret ++ enc_section s else ret
  end.

(** The output after the sections [ss], the bytes [before] preceding them. *)
Fixpoint strip_steps (before : list Z) (ss : list section) (ret : list Z) : list Z :=
  match ss with
  | [] => ret
  | s :: ss' => strip_steps (before ++ enc_section s) ss' (strip_step before s ret)
  end.


Definition name_str : list Z := bytes_of_string "name".

(** The module up to the data of its name section. *)
Definition name_prefix (version : list Z) (pre : list section) (data : list Z) : list Z :=
  wasm_header version ++ enc_sections pre
  ++ 0 :: leb128 (len (sec_payload (Custom name_str data))) ++ enc_name name_str.


(** The exports the loop has to get past: those before the first one that
    announces an ABI version. *)
Fixpoint exports_ok (es : list export) : Prop :=
  match es with
  | [] => True
  | e :: es' =>
      match export_abi e with
      | Some _ => True
      | None => skippable e /\ exports_ok es'
      end
  end.


(** An export the loop passes over: it announces no ABI version and the
    loop can skip its index. *)
Definition passed_over (e : export) : Prop := export_abi e = None /\ skippable e.


(** * Concrete inputs *)

(** The first three bytes of a module: a truncated file. *)
Definition short_buffer : list Z := [0; 97; 115].

Definition example_version : list Z := [1; 0; 0; 0].

(** A name section whose function-name subsection declares 5 bytes where
    its one pair and the count take 4, after a type section and a
    precompiled section, and before a code section cut short. *)
Definition broken_module : list Z :=
  wasm_header example_version
  ++ enc_section (Plain 1 [0])
  ++ enc_section (Custom (bytes_of_string "precompiled_x") [5])
  ++ enc_section (Custom name_str [1; 5; 1; 0; 1; 97; 0])
  ++ [10; 5; 0].

(** A name section that names function 0 twice: first "a", then "b". *)
Definition dup_pairs : list (Z * list Z) :=
  [(0, bytes_of_string "a"); (0, bytes_of_string "b")].

Definition dup_module : list Z :=
  wasm_header example_version
  ++ enc_section (Custom name_str (enc_subsection (FuncNames dup_pairs))).

(** An export section with two function exports: version 0.1.0 first, then
    version 0.2.1. *)
Definition two_abi_exports : list export :=
  [ mk_export (bytes_of_string "proxy_abi_version_0_1_0") 0 0;
    mk_export (bytes_of_string "proxy_abi_version_0_2_1") 0 1 ].

Definition two_abi_module : list Z :=
  wasm_header example_version ++ enc_section (export_section two_abi_exports).

(** The pairs of the example of the specification. *)
Definition main_helper : list (Z * list Z) :=
  [(0, bytes_of_string "main"); (2, bytes_of_string "helper")].

(** * Definitions for the further properties *)

(** The sections [getStrippedSource] keeps: all of them up to the first
    precompiled section, then the non-custom ones. *)
Fixpoint stripped_sections (ss : list section) : list section :=
  match ss with
  | [] => []
  | s :: ss' =>
      if is_precompiled s then List.filter is_plain ss' else s :: stripped_sections ss'
  end.

(** A module without a name section, and one whose name section has nothing
    after the name. *)
Definition absent_module : list Z :=
  wasm_header example_version ++ enc_sections [Plain 1 [0]].

Definition empty_name_module : list Z :=
  wasm_header example_version ++ enc_sections [Plain 1 [0]]
  ++ enc_section (Custom name_str []) ++ [10; 1; 0].

(** * Lemmas on buffers and machine arithmetic *)

Lemma len_nil : len [] = 0.
Proof. reflexivity. Qed.

Lemma len_cons x l : len (x :: l) = 1 + len l.
Proof. unfold len. simpl length. lia. Qed.

Lemma len_app l1 l2 : len (l1 ++ l2) = len l1 + len l2.
Proof. unfold len. rewrite length_app. lia. Qed.

Lemma len_nonneg l : 0 <= len l.
Proof. unfold len. lia. Qed.

(** Tactics. *)

(** Lists and lengths brought to a normal form. *)
Ltac norm_app :=
  repeat first [rewrite <- app_assoc | progress cbn [app]]; try reflexivity.
Ltac norm_len :=
  repeat first [rewrite len_app in * | rewrite len_cons in * | rewrite len_nil in *].

(** Side conditions on concrete modules. *)
Ltac solve_wf :=
  repeat first
    [ apply Forall_nil_2
    | apply Forall_cons_2
    | split
    | reflexivity
    | discriminate
    | exact I
    | solve [vm_compute; reflexivity]
    | solve [vm_compute; discriminate] ].

Lemma byte_at_app pre b post : byte_at (pre ++ b :: post) (len pre) = b.
Proof.
  unfold byte_at, len. rewrite Nat2Z.id.
  rewrite app_nth2 by lia. by rewrite Nat.sub_diag.
Qed.

Lemma sub_app pre l post : sub (pre ++ l ++ post) (len pre) (len l) = l.
Proof.
  unfold sub, len. rewrite !Nat2Z.id.
  rewrite drop_app_length. by rewrite take_app_length.
Qed.

Lemma sub_prefix l post : sub (l ++ post) 0 (len l) = l.
Proof. apply (sub_app [] l post). Qed.

Lemma land_127 b : Z.land b 127 = b mod 128.
Proof. change 127 with (Z.ones 7). by rewrite Z.land_ones. Qed.

Lemma land_128 b : (Z.land b 128 =? 0) = negb (Z.testbit b 7).
Proof.
  destruct (Z.testbit b 7) eqn:Hb; simpl.
  - apply Z.eqb_neq. intros H.
    assert (Z.testbit (Z.land b 128) 7 = true) as Ht.
    { rewrite Z.land_spec, Hb. reflexivity. }
    rewrite H in Ht. discriminate.
  - apply Z.eqb_eq. apply Z.bits_inj'. intros n Hn.
    rewrite Z.land_spec, Z.bits_0.
    change 128 with (2 ^ 7). rewrite Z.pow2_bits_eqb by lia.
    destruct (Z.eqb_spec 7 n) as [<- | Hne].
    + by rewrite Hb.
    + apply andb_false_r.
Qed.

Lemma testbit7_low v : 0 <= v < 128 -> Z.testbit v 7 = false.
Proof.
  intros Hv. apply Z.testbit_false; [lia|].
  change (2 ^ 7) with 128. rewrite Z.div_small by lia. reflexivity.
Qed.

Lemma testbit7_high m : 0 <= m < 128 -> Z.testbit (128 + m) 7 = true.
Proof.
  intros Hm. apply Z.testbit_true; [lia|].
  change (2 ^ 7) with 128.
  replace ((128 + m) / 128) with 1; [reflexivity|].
  apply Z.div_unique with (r := m); lia.
Qed.

Lemma shl32_small x s : 0 <= s < 32 -> shl32 x s = wrap32 (x * 2 ^ s).
Proof.
  intros Hs. unfold shl32.
  rewrite Z.mod_small by done. by rewrite Z.shiftl_mul_pow2 by lia.
Qed.

Lemma wrap32_add_l a b : wrap32 (wrap32 a + b) = wrap32 (a + b).
Proof. unfold wrap32. by rewrite Zplus_mod_idemp_l. Qed.

Lemma wrap32_add_r a b : wrap32 (a + wrap32 b) = wrap32 (a + b).
Proof. unfold wrap32. by rewrite Zplus_mod_idemp_r. Qed.

Lemma wrap32_small a : 0 <= a < 2 ^ 32 -> wrap32 a = a.
Proof. intros. unfold wrap32. by apply Z.mod_small. Qed.

Lemma leb128_n_length n v : (length (leb128_n n v) <= n)%nat.
Proof.
  revert v. induction n as [|n IH]; intros v; simpl; [lia|].
  destruct (v <? 128); simpl; [lia|]. specialize (IH (v / 128)). lia.
Qed.

Lemma leb128_n_S n v :
  leb128_n (S n) v =
    if v <? 128 then [v] else (128 + v mod 128) :: leb128_n n (v / 128).
Proof. reflexivity. Qed.

Lemma parseVarint_from_leb128 n : forall v pre post room s r,
  0 <= v < 128 ^ Z.of_nat (S n) -> 0 <= s -> s + 7 * Z.of_nat n < 32 ->
  (length (leb128_n (S n) v) <= room)%nat ->
  parseVarint_from room (pre ++ leb128_n (S n) v ++ post) (len pre) s r =
    if wrap32 (r + v * 2 ^ s) =? UINT32_MAX then None
    else Some (len pre + len (leb128_n (S n) v), wrap32 (r + v * 2 ^ s)).
Proof.
  induction n as [|n IH]; intros v pre post room s r Hv Hs Hsh Hroom.
  - change (128 ^ Z.of_nat 1) with 128 in Hv.
    simpl in *. destruct (Z.ltb_spec v 128); [|lia].
    destruct room as [|room]; [simpl in Hroom; lia|].
    simpl. rewrite byte_at_app, land_128, testbit7_low by lia. simpl.
    rewrite land_127, Z.mod_small, shl32_small, wrap32_add_r by lia.
    rewrite len_cons, len_nil. by replace (len pre + (1 + 0)) with (len pre + 1) by lia.
  - rewrite (leb128_n_S (S n) v) in *. destruct (Z.ltb_spec v 128) as [Hlt | Hge].
    + destruct room as [|room]; [simpl in Hroom; lia|].
      simpl. rewrite byte_at_app, land_128, testbit7_low by lia. simpl.
      rewrite land_127, Z.mod_small, shl32_small, wrap32_add_r by lia.
      rewrite len_cons, len_nil. by replace (len pre + (1 + 0)) with (len pre + 1) by lia.
    + destruct room as [|room]; [simpl in Hroom; lia|].
      assert (0 <= v mod 128 < 128) as Hm by (apply Z.mod_pos_bound; lia).
      cbn [parseVarint_from app]. rewrite byte_at_app, land_128, testbit7_high by lia.
      cbn [negb].
      rewrite land_127.
      replace ((128 + v mod 128) mod 128) with (v mod 128).
      2:{ rewrite <- Zplus_mod_idemp_l. change (128 mod 128) with 0.
          rewrite Z.add_0_l. by rewrite Z.mod_mod. }
      rewrite shl32_small, wrap32_add_r by lia.
      rewrite (wrap32_small (s + 7)) by lia.
      replace (pre ++ (128 + v mod 128) :: leb128_n (S n) (v / 128) ++ post)
        with ((pre ++ [128 + v mod 128]) ++ leb128_n (S n) (v / 128) ++ post)
        by (by rewrite <- app_assoc).
      replace (len pre + 1) with (len (pre ++ [128 + v mod 128]))
        by (rewrite len_app, len_cons, len_nil; lia).
      rewrite IH; cycle 1.
      { split; [apply Z.div_pos; lia|].
        apply Z.div_lt_upper_bound; [lia|].
        replace (128 ^ Z.of_nat (S (S n))) with (128 * 128 ^ Z.of_nat (S n)) in Hv; [lia|].
        rewrite (Nat2Z.inj_succ (S n)), Z.pow_succ_r by lia. done. }
      { lia. } { lia. } { cbn [length] in Hroom. lia. }
      rewrite wrap32_add_l.
      replace (r + v mod 128 * 2 ^ s + v / 128 * 2 ^ (s + 7)) with (r + v * 2 ^ s).
      2:{ rewrite Z.pow_add_r by lia. change (2 ^ 7) with 128.
          rewrite (Z.div_mod v 128) at 1 by lia. ring. }
      rewrite !len_app, !len_cons, len_nil.
      replace (len pre + (1 + 0) + len (leb128_n (S n) (v / 128)))
        with (len pre + (1 + len (leb128_n (S n) (v / 128)))) by lia.
      done.
Qed.

Lemma leb128_length v : 1 <= len (leb128 v) <= 5.
Proof.
  unfold leb128. pose proof (leb128_n_length 5 v) as H.
  unfold len. split; [|lia].
  rewrite leb128_n_S. destruct (v <? 128); simpl length; lia.
Qed.

(** Decoding the standard encoding of a [u32], on top of an accumulator
    [r], from anywhere in a buffer. *)
Lemma parseVarint_leb128 v pre post end_ r :
  is_u32 v -> len pre + len (leb128 v) <= end_ ->
  parseVarint (pre ++ leb128 v ++ post) (len pre) end_ r =
    if wrap32 (r + v) =? UINT32_MAX then None
    else Some (len pre + len (leb128 v), wrap32 (r + v)).
Proof.
  intros [Hv0 Hv] Hend. unfold parseVarint, leb128.
  assert (0 <= v < 128 ^ Z.of_nat 5) as Hv'.
  { change (128 ^ Z.of_nat 5) with 34359738368.
    change (2 ^ 32) with 4294967296 in Hv. lia. }
  assert (length (leb128_n 5 v) <= Z.to_nat (end_ - len pre))%nat as Hroom.
  { unfold leb128, len in *. lia. }
  rewrite (parseVarint_from_leb128 4 v pre post _ 0 r Hv') by (done || lia).
  by rewrite Z.pow_0_r, Z.mul_1_r.
Qed.

Lemma parseVarint_leb128_0 v pre post end_ :
  0 <= v < UINT32_MAX -> len pre + len (leb128 v) <= end_ ->
  parseVarint (pre ++ leb128 v ++ post) (len pre) end_ 0 =
    Some (len pre + len (leb128 v), v).
Proof.
  intros Hv Hend. unfold UINT32_MAX in Hv.
  rewrite parseVarint_leb128 by (unfold is_u32; change (2 ^ 32) with 4294967296; lia).
  rewrite Z.add_0_l, wrap32_small by (change (2 ^ 32) with 4294967296; lia).
  destruct (Z.eqb_spec v UINT32_MAX); [unfold UINT32_MAX in *; lia | done].
Qed.

(** * Walking sections: the prologue and [getCustomSection] *)


Lemma bytes_eqb_eq a b : bytes_eqb a b = true <-> a = b.
Proof.
  revert b. induction a as [|x a IH]; intros [|y b]; simpl; try (split; congruence).
  rewrite andb_true_iff, Z.eqb_eq, IH. split; [intros [-> ->]; done | intros [= -> ->]; done].
Qed.

Lemma bytes_eqb_refl a : bytes_eqb a a = true.
Proof. by apply bytes_eqb_eq. Qed.

Lemma bytes_eqb_neq a b : bytes_eqb a b = false <-> a <> b.
Proof.
  rewrite <- bytes_eqb_eq. destruct (bytes_eqb a b); split; congruence.
Qed.

(** Positioned variants: the buffer is given by an equation. *)
Lemma byte_at_eq buf pre b post pos :
  buf = pre ++ b :: post -> pos = len pre -> byte_at buf pos = b.
Proof. intros -> ->. apply byte_at_app. Qed.

Lemma sub_eq buf pre l post pos n :
  buf = pre ++ l ++ post -> pos = len pre -> n = len l -> sub buf pos n = l.
Proof. intros -> -> ->. apply sub_app. Qed.

Lemma parseVarint_eq buf v pre post pos end_ :
  buf = pre ++ leb128 v ++ post -> pos = len pre ->
  0 <= v < UINT32_MAX -> pos + len (leb128 v) <= end_ ->
  parseVarint buf pos end_ 0 = Some (pos + len (leb128 v), v).
Proof. intros -> -> Hv Hend. by apply parseVarint_leb128_0. Qed.

(** The prologue on a type byte followed by an encoded length. *)
Lemma section_prologue_eq buf t L pre post pos end_ :
  buf = pre ++ t :: leb128 L ++ post -> pos = len pre ->
  0 <= L < UINT32_MAX -> pos + 1 + len (leb128 L) + L <= end_ ->
  section_prologue buf pos end_ = Some (t, pos + 1 + len (leb128 L), L).
Proof.
  intros Hbuf Hpos HL Hend. unfold section_prologue.
  pose proof (leb128_length L) as Hl.
  destruct (Z.gtb_spec (pos + 1) end_) as [?|_]; [lia|].
  rewrite (byte_at_eq buf pre t (leb128 L ++ post)) by done.
  rewrite (parseVarint_eq buf L (pre ++ [t]) post); [| subst buf; norm_app | norm_len; lia | done | lia].
  destruct (Z.gtb_spec (pos + 1 + len (leb128 L) + L) end_) as [?|_]; [lia | done].
Qed.

Lemma enc_section_len s :
  len (enc_section s) = 1 + len (leb128 (len (sec_payload s))) + len (sec_payload s).
Proof. unfold enc_section. norm_len. lia. Qed.

Lemma enc_sections_cons s ss : enc_sections (s :: ss) = enc_section s ++ enc_sections ss.
Proof. reflexivity. Qed.

Lemma enc_sections_app ss1 ss2 :
  enc_sections (ss1 ++ ss2) = enc_sections ss1 ++ enc_sections ss2.
Proof. unfold enc_sections. by rewrite flat_map_app. Qed.

Lemma section_prologue_section buf s pre post pos end_ :
  buf = pre ++ enc_section s ++ post -> pos = len pre ->
  len (sec_payload s) < UINT32_MAX -> pos + len (enc_section s) <= end_ ->
  section_prologue buf pos end_ =
    Some (sec_type s, pos + 1 + len (leb128 (len (sec_payload s))), len (sec_payload s)).
Proof.
  intros Hbuf Hpos HL Hend. rewrite enc_section_len in Hend.
  eapply section_prologue_eq with (pre := pre) (post := sec_payload s ++ post).
  - subst buf. unfold enc_section. norm_app.
  - done.
  - pose proof (len_nonneg (sec_payload s)). lia.
  - lia.
Qed.

Lemma enc_name_len n : len (enc_name n) = len (leb128 (len n)) + len n.
Proof. unfold enc_name. by norm_len. Qed.

Lemma custom_payload_len n d :
  len (sec_payload (Custom n d)) = len (leb128 (len n)) + len n + len d.
Proof. cbn [sec_payload]. rewrite len_app, enc_name_len. lia. Qed.

Lemma custom_loop_S fuel buf name pos end_ ret :
  custom_loop (S fuel) buf name pos end_ ret =
  if pos <? end_ then
    match section_prologue buf pos end_ with
    | None => Some (false, ret)
    | Some (section_type, pos1, section_len) =>
        if section_type =? 0 then
          match parseVarint buf pos1 end_ 0 with
          | None => Some (false, ret)
          | Some (pos2, section_name_len) =>
              if pos2 + section_name_len >? end_ then Some (false, ret)
              else if (section_name_len =? len name)
                      && bytes_eqb (sub buf pos2 section_name_len) name
              then Some (true,
                         mk_sv (Some (pos2 + section_name_len))
                               (wrap64 (pos1 + section_len - (pos2 + section_name_len))))
              else custom_loop fuel buf name (pos1 + section_len) end_ ret
          end
        else custom_loop fuel buf name (pos1 + section_len) end_ ret
    end
  else Some (true, ret).
Proof. reflexivity. Qed.

(** The name of a custom section is read back from its encoding. *)
Lemma custom_name_read buf pre n d post pos1 end_ :
  buf = pre ++ enc_name n ++ d ++ post -> pos1 = len pre ->
  len n < UINT32_MAX -> pos1 + len (enc_name n) <= end_ ->
  parseVarint buf pos1 end_ 0 = Some (pos1 + len (leb128 (len n)), len n) /\
  sub buf (pos1 + len (leb128 (len n))) (len n) = n.
Proof.
  intros Hbuf Hpos Hn Hend. rewrite enc_name_len in Hend.
  pose proof (len_nonneg n). split.
  - apply parseVarint_eq with (pre := pre) (post := n ++ d ++ post); try done; try lia.
    subst buf. unfold enc_name. norm_app.
  - apply sub_eq with (pre := pre ++ leb128 (len n)) (post := d ++ post); try done.
    + subst buf. unfold enc_name. norm_app.
    + norm_len. lia.
Qed.

Lemma custom_loop_skip name ret ss : forall pre post fuel buf,
  buf = pre ++ enc_sections ss ++ post ->
  Forall wf_section ss ->
  Forall (fun s => custom_named name s = false) ss ->
  len (enc_sections ss) + len post <= Z.of_nat fuel ->
  exists fuel', len post <= Z.of_nat fuel' /\
    custom_loop fuel buf name (len pre) (len buf) ret =
    custom_loop fuel' buf name (len pre + len (enc_sections ss)) (len buf) ret.
Proof.
  induction ss as [|s ss IH]; intros pre post fuel buf Hbuf Hwf Hnm Hfuel.
  - exists fuel. change (enc_sections []) with (@nil Z) in *.
    rewrite len_nil in *. rewrite Z.add_0_r. split; [lia | done].
  - rewrite enc_sections_cons in *.
    apply Forall_cons in Hwf as [[HL Hty] Hwf]. apply Forall_cons in Hnm as [Hs Hnm].
    pose proof (enc_section_len s) as Hsl.
    pose proof (leb128_length (len (sec_payload s))) as Hll.
    pose proof (len_nonneg (sec_payload s)) as Hp0.
    pose proof (len_nonneg post) as Hpost0.
    pose proof (len_nonneg (enc_sections ss)) as Hss0.
    assert (len buf = len pre + len (enc_section s) + len (enc_sections ss) + len post)
      as Hlen by (subst buf; norm_len; lia).
    rewrite len_app in Hfuel.
    destruct fuel as [|fuel]; [lia|].
    destruct (IH (pre ++ enc_section s) post fuel buf) as (fuel' & Hf' & Heq);
      [subst buf; norm_app | done | done | lia |].
    exists fuel'. split; [done|].
    rewrite custom_loop_S.
    destruct (Z.ltb_spec (len pre) (len buf)) as [_|?]; [|lia].
    rewrite (section_prologue_section buf s pre (enc_sections ss ++ post));
      [| subst buf; norm_app | done | done | lia].
    rewrite len_app in Heq |- *.
    replace (len pre + 1 + len (leb128 (len (sec_payload s))) + len (sec_payload s))
      with (len pre + len (enc_section s)) by lia.
    replace (len pre + (len (enc_section s) + len (enc_sections ss)))
      with (len pre + len (enc_section s) + len (enc_sections ss)) by lia.
    destruct s as [n d | ty p].
    + cbn [sec_type]. rewrite Z.eqb_refl.
      rewrite custom_payload_len in *.
      pose proof (len_nonneg n). pose proof (len_nonneg d).
      pose proof (leb128_length (len n)).
      destruct (custom_name_read buf
                  (pre ++ 0 :: leb128 (len (sec_payload (Custom n d)))) n d
                  (enc_sections ss ++ post)
                  (len pre + 1 + len (leb128 (len (sec_payload (Custom n d)))))
                  (len buf)) as [Hpv Hsub].
      { subst buf. unfold enc_section. cbn [sec_type sec_payload]. norm_app. }
      { norm_len. lia. }
      { lia. }
      { rewrite enc_name_len. rewrite custom_payload_len. lia. }
      rewrite custom_payload_len in Hpv, Hsub. rewrite Hpv, Hsub.
      destruct (Z.gtb_spec (len pre + 1 + len (leb128 (len (leb128 (len n)) + len n + len d))
                            + len (leb128 (len n)) + len n) (len buf)) as [?|_]; [lia|].
      cbn [custom_named] in Hs. rewrite Hs, andb_false_r. done.
    + cbn [sec_type]. destruct (Z.eqb_spec ty 0) as [?|_]; [done|]. done.
Qed.

Lemma checkWasmHeader_header version rest :
  checkWasmHeader (wasm_header version ++ rest) = true.
Proof.
  unfold checkWasmHeader, wasm_header, wasm_magic_number.
  replace (sub (([0; 97; 115; 109] ++ version) ++ rest) 0 4) with [0; 97; 115; 109].
  - apply orb_true_r.
  - symmetry. by apply sub_eq with (pre := []) (post := version ++ rest).
Qed.

Lemma wasm_header_len version : len version = 4 -> len (wasm_header version) = 8.
Proof. intros H. unfold wasm_header. rewrite len_app, H. reflexivity. Qed.

Lemma wrap64_small a : 0 <= a < UINT32_MAX -> wrap64 a = a.
Proof.
  intros H. unfold wrap64. apply Z.mod_small. unfold UINT32_MAX in H.
  change (2 ^ 64) with 18446744073709551616. lia.
Qed.

(** No custom section of that name: success, and [ret] is not written. *)
Lemma getCustomSection_not_found version ss name ret :
  len version = 4 ->
  Forall wf_section ss ->
  Forall (fun s => custom_named name s = false) ss ->
  getCustomSection (wasm_header version ++ enc_sections ss) name ret = Some (true, ret).
Proof.
  intros Hv Hwf Hnm. unfold getCustomSection.
  rewrite checkWasmHeader_header. cbn [negb].
  pose proof (wasm_header_len version Hv) as Hh.
  set (buf := wasm_header version ++ enc_sections ss).
  destruct (custom_loop_skip name ret ss (wasm_header version) [] (length buf) buf)
    as (fuel' & _ & Heq); try done.
  { subst buf. by rewrite app_nil_r. }
  { subst buf. norm_len. pose proof (len_nonneg (wasm_header version)).
    fold (len (wasm_header version ++ enc_sections ss)). rewrite len_app. lia. }
  rewrite Hh in Heq. rewrite Heq.
  replace (8 + len (enc_sections ss)) with (len buf)
    by (subst buf; rewrite len_app; lia).
  destruct fuel'; simpl; by rewrite Z.ltb_irrefl.
Qed.

(** The first custom section of that name: its data, as a range. *)
Lemma getCustomSection_found version pre name data post ret :
  len version = 4 ->
  Forall wf_section pre ->
  Forall (fun s => custom_named name s = false) pre ->
  wf_section (Custom name data) ->
  getCustomSection
    (wasm_header version ++ enc_sections pre ++ enc_section (Custom name data) ++ post)
    name ret
  = Some (true, mk_sv (Some (custom_data_pos pre name data)) (len data)).
Proof.
  intros Hv Hwf Hnm [HL _]. unfold getCustomSection.
  rewrite checkWasmHeader_header. cbn [negb].
  pose proof (wasm_header_len version Hv) as Hh.
  set (s := Custom name data) in *.
  set (buf := wasm_header version ++ enc_sections pre ++ enc_section s ++ post).
  pose proof (enc_section_len s) as Hsl.
  pose proof (leb128_length (len (sec_payload s))) as Hll.
  pose proof (leb128_length (len name)) as Hln.
  pose proof (len_nonneg (sec_payload s)) as Hp0.
  pose proof (len_nonneg name). pose proof (len_nonneg data). pose proof (len_nonneg post).
  pose proof (len_nonneg (enc_sections pre)).
  assert (len buf = 8 + len (enc_sections pre) + len (enc_section s) + len post) as Hlen.
  { subst buf. norm_len. lia. }
  destruct (custom_loop_skip name ret pre (wasm_header version) (enc_section s ++ post)
              (length buf) buf) as (fuel' & Hf' & Heq); try done.
  { fold (len buf). rewrite Hlen, len_app. lia. }
  rewrite Hh in Heq. rewrite Heq. clear Heq.
  rewrite len_app in Hf'.
  destruct fuel' as [|fuel']; [lia|].
  rewrite custom_loop_S.
  destruct (Z.ltb_spec (8 + len (enc_sections pre)) (len buf)) as [_|?]; [|lia].
  rewrite (section_prologue_section buf s (wasm_header version ++ enc_sections pre) post);
    [| subst buf; norm_app | norm_len; lia | done | lia].
  subst s. cbn [sec_type]. rewrite Z.eqb_refl.
  rewrite custom_payload_len in *.
  destruct (custom_name_read buf
              ((wasm_header version ++ enc_sections pre)
               ++ 0 :: leb128 (len (leb128 (len name)) + len name + len data))
              name data post
              (8 + len (enc_sections pre) + 1
               + len (leb128 (len (leb128 (len name)) + len name + len data)))
              (len buf)) as [Hpv Hsub].
  { subst buf. unfold enc_section. cbn [sec_type].
    rewrite custom_payload_len. cbn [sec_payload]. norm_app. }
  { norm_len. lia. }
  { lia. }
  { rewrite enc_name_len. lia. }
  rewrite Hpv, Hsub.
  destruct (Z.gtb_spec (8 + len (enc_sections pre) + 1
                        + len (leb128 (len (leb128 (len name)) + len name + len data))
                        + len (leb128 (len name)) + len name) (len buf)) as [?|_]; [lia|].
  rewrite Z.eqb_refl, bytes_eqb_refl. cbn [andb].
  unfold custom_data_pos. rewrite custom_payload_len.
  do 3 f_equal.
  etransitivity; [|apply (wrap64_small (len data)); lia]. f_equal. lia.
Qed.

(** * [getStrippedSource] on encoded modules *)

Lemma strip_loop_S fuel buf pos end_ ret :
  strip_loop (S fuel) buf pos end_ ret =
  if pos <? end_ then
    match section_prologue buf pos end_ with
    | None => Some (false, ret)
    | Some (section_type, pos1, section_len) =>
        if section_type =? 0 then
          match parseVarint buf pos1 end_ 0 with
          | None => Some (false, ret)
          | Some (pos2, section_name_len) =>
              if pos2 + section_name_len >? end_ then Some (false, ret)
              else
                strip_loop fuel buf (pos1 + section_len) end_
                  match sv_find (sub buf pos2 section_name_len)
                                (bytes_of_string "precompiled_") with
                  | Some _ => if is_nil ret then ret ++ sub buf 0 pos else ret
                  | None => ret
                  end
          end
        else
          strip_loop fuel buf (pos1 + section_len) end_
            (if negb (is_nil ret)
             then ret ++ sub buf pos (pos1 + section_len - pos)
             else ret)
    end
  else Some (true, if is_nil ret then buf else ret).
Proof. reflexivity. Qed.

Lemma strip_loop_step fuel buf pre s post ret :
  buf = pre ++ enc_section s ++ post ->
  wf_section s ->
  strip_loop (S fuel) buf (len pre) (len buf) ret =
  strip_loop fuel buf (len pre + len (enc_section s)) (len buf) (strip_step pre s ret).
Proof.
  intros Hbuf [HL Hty].
  pose proof (enc_section_len s) as Hsl.
  pose proof (leb128_length (len (sec_payload s))) as Hll.
  pose proof (len_nonneg (sec_payload s)) as Hp0.
  pose proof (len_nonneg post) as Hpost0.
  assert (len buf = len pre + len (enc_section s) + len post) as Hlen
    by (subst buf; norm_len; lia).
  rewrite strip_loop_S.
  destruct (Z.ltb_spec (len pre) (len buf)) as [_|?]; [|lia].
  rewrite (section_prologue_section buf s pre post); [| done | done | done | lia].
  replace (len pre + 1 + len (leb128 (len (sec_payload s))) + len (sec_payload s))
    with (len pre + len (enc_section s)) by lia.
  destruct s as [n d | ty p].
  - cbn [sec_type]. rewrite Z.eqb_refl.
    rewrite custom_payload_len in *.
    pose proof (len_nonneg n). pose proof (len_nonneg d).
    pose proof (leb128_length (len n)).
    destruct (custom_name_read buf
                (pre ++ 0 :: leb128 (len (leb128 (len n)) + len n + len d)) n d post
                (len pre + 1 + len (leb128 (len (leb128 (len n)) + len n + len d)))
                (len buf)) as [Hpv Hsub].
    { subst buf. unfold enc_section. cbn [sec_type].
      rewrite custom_payload_len. cbn [sec_payload]. norm_app. }
    { norm_len. lia. }
    { lia. }
    { rewrite enc_name_len. lia. }
    rewrite Hpv, Hsub.
    destruct (Z.gtb_spec (len pre + 1 + len (leb128 (len (leb128 (len n)) + len n + len d))
                          + len (leb128 (len n)) + len n) (len buf)) as [?|_]; [lia|].
    f_equal. unfold strip_step, is_precompiled.
    destruct (sv_find n (bytes_of_string "precompiled_")); [|done].
    destruct (is_nil ret); [|done].
    f_equal. apply sub_eq with (pre := []) (post := enc_section (Custom n d) ++ post); try done.
  - cbn [sec_type]. destruct (Z.eqb_spec ty 0) as [?|_]; [done|].
    f_equal. unfold strip_step.
    destruct (negb (is_nil ret)); [|done].
    f_equal. apply sub_eq with (pre := pre) (post := post); try done. lia.
Qed.

Lemma strip_loop_steps ss : forall pre post fuel buf ret,
  buf = pre ++ enc_sections ss ++ post ->
  Forall wf_section ss ->
  len (enc_sections ss) + len post <= Z.of_nat fuel ->
  exists fuel', len post <= Z.of_nat fuel' /\
    strip_loop fuel buf (len pre) (len buf) ret =
    strip_loop fuel' buf (len pre + len (enc_sections ss)) (len buf)
      (strip_steps pre ss ret).
Proof.
  induction ss as [|s ss IH]; intros pre post fuel buf ret Hbuf Hwf Hfuel.
  - exists fuel. change (enc_sections []) with (@nil Z) in *.
    rewrite len_nil in *. rewrite Z.add_0_r. split; [lia | done].
  - rewrite enc_sections_cons in *.
    apply Forall_cons in Hwf as [Hs Hwf].
    pose proof (enc_section_len s) as Hsl.
    pose proof (leb128_length (len (sec_payload s))) as Hll.
    pose proof (len_nonneg (sec_payload s)) as Hp0.
    pose proof (len_nonneg post) as Hpost0.
    pose proof (len_nonneg (enc_sections ss)) as Hss0.
    rewrite len_app in Hfuel.
    destruct fuel as [|fuel]; [lia|].
    destruct (IH (pre ++ enc_section s) post fuel buf (strip_step pre s ret))
      as (fuel' & Hf' & Heq); [subst buf; norm_app | done | lia |].
    exists fuel'. split; [done|].
    rewrite (strip_loop_step fuel buf pre s (enc_sections ss ++ post));
      [| subst buf; norm_app | done].
    rewrite len_app in Heq |- *. rewrite Heq. cbn [strip_steps].
    f_equal. lia.
Qed.

Lemma strip_steps_clean ss : forall before,
  Forall (fun s => is_precompiled s = false) ss -> strip_steps before ss [] = [].
Proof.
  induction ss as [|s ss IH]; intros before Hc; [done|].
  apply Forall_cons in Hc as [Hs Hc]. cbn [strip_steps].
  replace (strip_step before s []) with (@nil Z); [by apply IH|].
  destruct s; cbn [strip_step is_nil negb]; by rewrite ?Hs.
Qed.

Lemma is_nil_app_l ret l : is_nil ret = false -> is_nil (ret ++ l) = false.
Proof. by destruct ret. Qed.

Lemma strip_steps_started ss : forall before ret,
  is_nil ret = false ->
  strip_steps before ss ret = ret ++ enc_sections (List.filter is_plain ss).
Proof.
  induction ss as [|s ss IH]; intros before ret Hret; cbn [strip_steps].
  - by rewrite app_nil_r.
  - destruct s as [n d | ty p]; cbn [strip_step List.filter is_plain is_custom negb].
    + rewrite Hret. destruct (is_precompiled (Custom n d)); by apply IH.
    + rewrite Hret. cbn [negb]. rewrite IH by by apply is_nil_app_l.
      rewrite enc_sections_cons. norm_app.
Qed.

Lemma strip_steps_app ss1 ss2 : forall before ret,
  strip_steps before (ss1 ++ ss2) ret =
  strip_steps (before ++ enc_sections ss1) ss2 (strip_steps before ss1 ret).
Proof.
  induction ss1 as [|s ss1 IH]; intros before ret; cbn [strip_steps app].
  - by rewrite app_nil_r.
  - rewrite IH. rewrite enc_sections_cons. by rewrite <- app_assoc.
Qed.

(** On a well-formed module the scan succeeds; the output follows
    [strip_steps]. *)
Lemma getStrippedSource_steps version ss ret :
  len version = 4 ->
  Forall wf_section ss ->
  getStrippedSource (wasm_header version ++ enc_sections ss) ret =
    Some (true,
          let r := strip_steps (wasm_header version) ss ret in
          if is_nil r then wasm_header version ++ enc_sections ss else r).
Proof.
  intros Hv Hwf. unfold getStrippedSource.
  rewrite checkWasmHeader_header. cbn [negb].
  pose proof (wasm_header_len version Hv) as Hh.
  set (buf := wasm_header version ++ enc_sections ss).
  destruct (strip_loop_steps ss (wasm_header version) [] (length buf) buf ret)
    as (fuel' & _ & Heq); try done.
  { subst buf. by rewrite app_nil_r. }
  { fold (len buf). subst buf. norm_len. lia. }
  rewrite Hh in Heq. rewrite Heq.
  replace (8 + len (enc_sections ss)) with (len buf)
    by (subst buf; rewrite len_app; lia).
  destruct fuel'; simpl; by rewrite Z.ltb_irrefl.
Qed.

Lemma getStrippedSource_clean version ss :
  len version = 4 ->
  Forall wf_section ss ->
  Forall (fun s => is_precompiled s = false) ss ->
  getStrippedSource (wasm_header version ++ enc_sections ss) [] =
    Some (true, wasm_header version ++ enc_sections ss).
Proof.
  intros Hv Hwf Hc. rewrite getStrippedSource_steps by done.
  cbn zeta. by rewrite strip_steps_clean.
Qed.

Lemma getStrippedSource_strip version pre c post :
  len version = 4 ->
  Forall wf_section (pre ++ c :: post) ->
  Forall (fun s => is_precompiled s = false) pre ->
  is_precompiled c = true ->
  getStrippedSource (wasm_header version ++ enc_sections (pre ++ c :: post)) [] =
    Some (true, wasm_header version ++ enc_sections pre ++ enc_sections (List.filter is_plain post)).
Proof.
  intros Hv Hwf Hpre Hc. rewrite getStrippedSource_steps by done.
  cbn zeta. rewrite strip_steps_app, strip_steps_clean by done.
  cbn [strip_steps].
  assert (strip_step (wasm_header version ++ enc_sections pre) c []
          = wasm_header version ++ enc_sections pre) as ->.
  { destruct c; [|done]. cbn [strip_step]. by rewrite Hc. }
  assert (is_nil (wasm_header version ++ enc_sections pre) = false) as Hne by done.
  rewrite strip_steps_started by done.
  rewrite is_nil_app_l by done. by rewrite <- app_assoc.
Qed.

(** Sections split at the first one whose name contains [precompiled_]. *)
Lemma first_precompiled ss :
  Forall (fun s => is_precompiled s = false) ss \/
  exists pre c post,
    ss = pre ++ c :: post /\
    Forall (fun s => is_precompiled s = false) pre /\ is_precompiled c = true.
Proof.
  induction ss as [|s ss IH]; [by left|].
  destruct (is_precompiled s) eqn:Hs.
  - right. by exists [], s, ss.
  - destruct IH as [Hc | (pre & c & post & -> & Hpre & Hc)].
    + left. by apply Forall_cons.
    + right. exists (s :: pre), c, post. repeat split; [|done]. by apply Forall_cons.
Qed.

Lemma is_precompiled_plain s : is_plain s = true -> is_precompiled s = false.
Proof. by destruct s. Qed.

(** Stripping the output of a strip changes nothing. *)
Lemma getStrippedSource_idempotent version ss :
  len version = 4 ->
  Forall wf_section ss ->
  exists out,
    getStrippedSource (wasm_header version ++ enc_sections ss) [] = Some (true, out) /\
    getStrippedSource out [] = Some (true, out).
Proof.
  intros Hv Hwf.
  destruct (first_precompiled ss) as [Hc | (pre & c & post & -> & Hpre & Hc)].
  - exists (wasm_header version ++ enc_sections ss).
    by rewrite getStrippedSource_clean.
  - exists (wasm_header version ++ enc_sections (pre ++ List.filter is_plain post)).
    rewrite getStrippedSource_strip by done.
    rewrite enc_sections_app. split; [done|].
    rewrite <- enc_sections_app.
    apply Forall_app in Hwf as [Hwpre Hwpost]. apply Forall_cons in Hwpost as [_ Hwpost].
    apply getStrippedSource_clean; [done | |].
    + apply Forall_app. split; [done|].
      apply Forall_forall. intros s Hs. apply list_elem_of_In, filter_In in Hs as [Hs _].
      rewrite Forall_forall in Hwpost. apply Hwpost. by apply list_elem_of_In.
    + apply Forall_app. split; [done|].
      apply Forall_forall. intros s Hs. apply list_elem_of_In, filter_In in Hs as [_ Hs].
      by apply is_precompiled_plain.
Qed.

(** * [getFunctionNameIndex] on encoded name sections *)

Lemma enc_pair_len p :
  len (enc_pair p) = len (leb128 (fst p)) + len (leb128 (len (snd p))) + len (snd p).
Proof. unfold enc_pair. rewrite len_app, enc_name_len. lia. Qed.

Lemma pairs_count_le ps : Z.of_nat (length ps) <= len (flat_map enc_pair ps).
Proof.
  induction ps as [|p ps IH]; [done|].
  cbn [flat_map length]. rewrite len_app, enc_pair_len.
  pose proof (leb128_length (fst p)). pose proof (leb128_length (len (snd p))).
  pose proof (len_nonneg (snd p)). lia.
Qed.

Lemma insert_pairs_cons p ps m :
  insert_pairs (p :: ps) m = insert_pairs ps (umap_insert (fst p) (snd p) m).
Proof. reflexivity. Qed.

Lemma insert_pairs_app ps1 ps2 m :
  insert_pairs (ps1 ++ ps2) m = insert_pairs ps2 (insert_pairs ps1 m).
Proof. unfold insert_pairs. by rewrite fold_left_app. Qed.

Lemma namemap_loop_pairs ps : forall pre post buf end_ ret,
  buf = pre ++ flat_map enc_pair ps ++ post ->
  Forall wf_pair ps ->
  len (flat_map enc_pair ps) < UINT32_MAX ->
  len pre + len (flat_map enc_pair ps) <= end_ ->
  namemap_loop (length ps) buf (len pre) end_ ret =
    (Some (len pre + len (flat_map enc_pair ps)), insert_pairs ps ret).
Proof.
  induction ps as [|[i n] ps IH]; intros pre post buf end_ ret Hbuf Hwf HL Hend.
  - cbn. by rewrite Z.add_0_r.
  - apply Forall_cons in Hwf as [Hi Hwf]. unfold wf_pair in Hi. cbn [fst] in Hi.
    cbn [flat_map length] in *. rewrite len_app, enc_pair_len in *. cbn [fst snd] in *.
    pose proof (leb128_length i). pose proof (leb128_length (len n)).
    pose proof (len_nonneg n). pose proof (len_nonneg (flat_map enc_pair ps)).
    cbn [namemap_loop].
    rewrite (parseVarint_eq buf i pre (enc_name n ++ flat_map enc_pair ps ++ post));
      [| subst buf; unfold enc_pair; cbn [fst snd]; norm_app | done | done | lia].
    destruct (custom_name_read buf (pre ++ leb128 i) n (flat_map enc_pair ps) post
                (len pre + len (leb128 i)) end_) as [Hpv Hsub].
    { subst buf. unfold enc_pair. cbn [fst snd]. norm_app. }
    { by rewrite len_app. }
    { lia. }
    { rewrite enc_name_len. lia. }
    rewrite Hpv, Hsub.
    destruct (Z.gtb_spec (len pre + len (leb128 i) + len (leb128 (len n)) + len n) end_)
      as [?|_]; [lia|].
    rewrite insert_pairs_cons. cbn [fst snd].
    replace (len pre + len (leb128 i) + len (leb128 (len n)) + len n)
      with (len (pre ++ enc_pair (i, n)))
      by (rewrite len_app, enc_pair_len; cbn [fst snd]; lia).
    rewrite (IH (pre ++ enc_pair (i, n)) post buf end_);
      [| subst buf; norm_app | done | lia
       | rewrite len_app, enc_pair_len; cbn [fst snd]; lia].
    do 2 f_equal. rewrite len_app, enc_pair_len. cbn [fst snd]. lia.
Qed.

Lemma name_loop_S fuel buf pos end_ ret :
  name_loop (S fuel) buf pos end_ ret =
  if pos <? end_ then
    match section_prologue buf pos end_ with
    | None => Some (false, ret)
    | Some (subsection_id, pos1, subsection_size) =>
        if negb (subsection_id =? 1)
        then name_loop fuel buf (pos1 + subsection_size) end_ ret
        else
          match parseVarint buf pos1 end_ 0 with
          | None => Some (false, ret)
          | Some (pos2, namemap_vector_size) =>
              if pos2 + namemap_vector_size >? end_ then Some (false, ret)
              else
                match namemap_loop (Z.to_nat namemap_vector_size) buf pos2 end_ ret with
                | (None, ret') => Some (false, ret')
                | (Some pos3, ret') =>
                    if negb (pos1 + subsection_size =? pos3)
                    then Some (false, ret')
                    else name_loop fuel buf pos3 end_ ret'
                end
          end
    end
  else Some (true, ret).
Proof. reflexivity. Qed.

Lemma enc_subsection_len s :
  len (enc_subsection s) = 1 + len (leb128 (len (sub_body s))) + len (sub_body s).
Proof. unfold enc_subsection. norm_len. lia. Qed.

Lemma namemap_body_len ps :
  len (namemap_body ps) =
  len (leb128 (Z.of_nat (length ps))) + len (flat_map enc_pair ps).
Proof. unfold namemap_body. by rewrite len_app. Qed.

Lemma name_loop_step fuel buf pre s post end_ ret :
  buf = pre ++ enc_subsection s ++ post ->
  wf_subsection s ->
  len pre + len (enc_subsection s) <= end_ ->
  name_loop (S fuel) buf (len pre) end_ ret =
  name_loop fuel buf (len pre + len (enc_subsection s)) end_
    (insert_pairs (sub_pairs s) ret).
Proof.
  intros Hbuf [HL Hs] Hend.
  pose proof (enc_subsection_len s) as Hsl.
  pose proof (leb128_length (len (sub_body s))) as Hll.
  pose proof (len_nonneg (sub_body s)) as Hb0.
  rewrite name_loop_S.
  destruct (Z.ltb_spec (len pre) end_) as [_|?]; [|lia].
  rewrite (section_prologue_eq buf (sub_id s) (len (sub_body s)) pre (sub_body s ++ post));
    [| subst buf; unfold enc_subsection; norm_app | done | lia | lia].
  replace (len pre + 1 + len (leb128 (len (sub_body s))) + len (sub_body s))
    with (len pre + len (enc_subsection s)) by lia.
  destruct s as [ps | id body]; cbn [sub_id sub_pairs].
  - cbn [Z.eqb Pos.eqb negb]. cbn [sub_body] in *. rewrite namemap_body_len in *.
    pose proof (pairs_count_le ps) as Hcnt.
    pose proof (leb128_length (Z.of_nat (length ps))) as Hlc.
    rewrite (parseVarint_eq buf (Z.of_nat (length ps))
               (pre ++ 1 :: leb128 (len (leb128 (Z.of_nat (length ps)))
                                    + len (flat_map enc_pair ps)))
               (flat_map enc_pair ps ++ post));
      [| subst buf; unfold enc_subsection; cbn [sub_id sub_body];
         rewrite namemap_body_len; unfold namemap_body; norm_app
       | norm_len; lia | lia | lia].
    set (pos2 := len pre + 1
                 + len (leb128 (len (leb128 (Z.of_nat (length ps)))
                                + len (flat_map enc_pair ps)))
                 + len (leb128 (Z.of_nat (length ps)))).
    destruct (Z.gtb_spec (pos2 + Z.of_nat (length ps)) end_) as [?|_]; [lia|].
    rewrite Nat2Z.id.
    replace pos2 with
      (len ((pre ++ 1 :: leb128 (len (leb128 (Z.of_nat (length ps)))
                                 + len (flat_map enc_pair ps)))
            ++ leb128 (Z.of_nat (length ps))))
      by (subst pos2; norm_len; lia).
    rewrite (namemap_loop_pairs ps _ post buf end_ ret);
      [| subst buf; unfold enc_subsection; cbn [sub_id sub_body];
         rewrite namemap_body_len; unfold namemap_body; norm_app
       | done | lia | norm_len; lia].
    match goal with |- context [negb (?a =? ?b)] =>
      replace b with a by (norm_len; lia) end.
    rewrite Z.eqb_refl. cbn [negb]. done.
  - destruct (Z.eqb_spec id 1) as [?|_]; [done|]. cbn [negb]. done.
Qed.

Lemma enc_subsections_cons s ss :
  enc_subsections (s :: ss) = enc_subsection s ++ enc_subsections ss.
Proof. reflexivity. Qed.

Lemma name_loop_steps ss : forall pre post fuel buf end_ ret,
  buf = pre ++ enc_subsections ss ++ post ->
  Forall wf_subsection ss ->
  len pre + len (enc_subsections ss) <= end_ ->
  end_ - len pre <= Z.of_nat fuel ->
  exists fuel', end_ - (len pre + len (enc_subsections ss)) <= Z.of_nat fuel' /\
    name_loop fuel buf (len pre) end_ ret =
    name_loop fuel' buf (len pre + len (enc_subsections ss)) end_
      (insert_pairs (flat_map sub_pairs ss) ret).
Proof.
  induction ss as [|s ss IH]; intros pre post fuel buf end_ ret Hbuf Hwf Hend Hfuel.
  - exists fuel. change (enc_subsections []) with (@nil Z) in *.
    rewrite len_nil in *. rewrite Z.add_0_r. split; [lia | done].
  - rewrite enc_subsections_cons in *.
    apply Forall_cons in Hwf as [Hs Hwf].
    pose proof (enc_subsection_len s) as Hsl.
    pose proof (leb128_length (len (sub_body s))) as Hll.
    pose proof (len_nonneg (sub_body s)) as Hp0.
    pose proof (len_nonneg (enc_subsections ss)) as Hss0.
    rewrite len_app in Hend.
    destruct fuel as [|fuel]; [lia|].
    destruct (IH (pre ++ enc_subsection s) post fuel buf end_
                (insert_pairs (sub_pairs s) ret))
      as (fuel' & Hf' & Heq); [subst buf; norm_app | done | rewrite len_app; lia
                               | rewrite len_app; lia |].
    exists fuel'. rewrite len_app in *. split; [lia|].
    rewrite (name_loop_step fuel buf pre s (enc_subsections ss ++ post));
      [| subst buf; norm_app | done | lia].
    rewrite Heq. cbn [flat_map]. rewrite insert_pairs_app.
    f_equal. lia.
Qed.

Lemma name_prefix_len version pre data :
  len version = 4 ->
  len (name_prefix version pre data) = custom_data_pos pre name_str data.
Proof.
  intros Hv. unfold name_prefix, custom_data_pos.
  rewrite !len_app, len_cons, len_app, enc_name_len, (wasm_header_len version Hv). lia.
Qed.

Lemma name_prefix_module version pre data post :
  wasm_header version ++ enc_sections pre
  ++ enc_section (Custom name_str data) ++ post
  = name_prefix version pre data ++ data ++ post.
Proof. unfold name_prefix, enc_section. cbn [sec_type sec_payload]. norm_app. Qed.

Lemma enc_subsections_nil_inv ss : len (enc_subsections ss) = 0 -> ss = [].
Proof.
  destruct ss as [|s ss]; [done|].
  rewrite enc_subsections_cons, len_app, enc_subsection_len.
  pose proof (leb128_length (len (sub_body s))). pose proof (len_nonneg (sub_body s)).
  pose proof (len_nonneg (enc_subsections ss)). lia.
Qed.

(** The scan of the name section starts at its data and ends with it. *)
Lemma getFunctionNameIndex_data version pre data post ret :
  let bytecode :=
    wasm_header version ++ enc_sections pre
    ++ enc_section (Custom name_str data) ++ post in
  len version = 4 ->
  len bytecode < 2 ^ 64 ->
  Forall wf_section pre ->
  Forall (fun s => custom_named name_str s = false) pre ->
  wf_section (Custom name_str data) ->
  getFunctionNameIndex bytecode ret =
    if len data =? 0 then Some (true, ret)
    else name_loop (length bytecode) bytecode
           (len (name_prefix version pre data))
           (len (name_prefix version pre data) + len data) ret.
Proof.
  intros bytecode Hv H64 Hwf Hnm Hs. unfold getFunctionNameIndex.
  fold name_str. subst bytecode.
  rewrite getCustomSection_found by done.
  unfold sv_empty. cbn [sv_size sv_data default].
  destruct (Z.eqb_spec (len data) 0) as [?|Hne]; [done|]. cbn [negb].
  rewrite <- (name_prefix_len version) by done.
  f_equal. unfold wrap64. apply Z.mod_small.
  rewrite name_prefix_module in H64. rewrite !len_app in H64.
  pose proof (len_nonneg (name_prefix version pre data)).
  pose proof (len_nonneg data). pose proof (len_nonneg post). lia.
Qed.

(** The mapping of a well-formed name section: every pair of every
    function-name subsection goes through [insert], in order. *)
Lemma getFunctionNameIndex_names version pre subs post ret :
  let bytecode :=
    wasm_header version ++ enc_sections pre
    ++ enc_section (Custom name_str (enc_subsections subs)) ++ post in
  len version = 4 ->
  len bytecode < 2 ^ 64 ->
  Forall wf_section pre ->
  Forall (fun s => custom_named name_str s = false) pre ->
  wf_section (Custom name_str (enc_subsections subs)) ->
  Forall wf_subsection subs ->
  getFunctionNameIndex bytecode ret =
    Some (true, insert_pairs (flat_map sub_pairs subs) ret).
Proof.
  intros bytecode Hv H64 Hwf Hnm Hs Hsubs.
  pose proof (getFunctionNameIndex_data version pre (enc_subsections subs) post ret
                Hv H64 Hwf Hnm Hs) as Hd.
  cbn zeta in Hd. fold bytecode in Hd. rewrite Hd. clear Hd.
  destruct (Z.eqb_spec (len (enc_subsections subs)) 0) as [H0|Hne].
  { by rewrite (enc_subsections_nil_inv subs H0). }
  set (P := name_prefix version pre (enc_subsections subs)).
  assert (bytecode = P ++ enc_subsections subs ++ post) as Hbuf
    by apply name_prefix_module.
  pose proof (len_nonneg P). pose proof (len_nonneg post).
  pose proof (len_nonneg (enc_subsections subs)).
  destruct (name_loop_steps subs P post (length bytecode) bytecode
              (len P + len (enc_subsections subs)) ret)
    as (fuel' & _ & Heq); try done.
  { fold (len bytecode). rewrite Hbuf. norm_len. lia. }
  rewrite Heq. destruct fuel'; simpl; by rewrite Z.ltb_irrefl.
Qed.

Lemma getFunctionNameIndex_absent version ss ret :
  len version = 4 ->
  Forall wf_section ss ->
  Forall (fun s => custom_named name_str s = false) ss ->
  getFunctionNameIndex (wasm_header version ++ enc_sections ss) ret = Some (true, ret).
Proof.
  intros Hv Hwf Hnm. unfold getFunctionNameIndex. fold name_str.
  by rewrite getCustomSection_not_found.
Qed.

Lemma umap_insert_lookup i v (m : gmap Z (list Z)) k :
  umap_insert i v m !! k =
    match m !! k with
    | Some w => Some w
    | None => if i =? k then Some v else None
    end.
Proof.
  unfold umap_insert. destruct (Z.eqb_spec i k) as [->|Hne].
  - destruct (m !! k) eqn:Hk; [by rewrite Hk|]. by rewrite lookup_insert_eq.
  - destruct (m !! i) eqn:Hi.
    + by destruct (m !! k).
    + rewrite lookup_insert_ne by done. by destruct (m !! k).
Qed.

(** [insert] keeps what is there: the first pair with a given index is the
    one the mapping ends up with. *)
Lemma insert_pairs_lookup ps : forall (m : gmap Z (list Z)) k,
  insert_pairs ps m !! k =
    match m !! k with
    | Some w => Some w
    | None => first_name k ps
    end.
Proof.
  induction ps as [|[i v] ps IH]; intros m k.
  - cbn. by destruct (m !! k).
  - rewrite insert_pairs_cons, IH, umap_insert_lookup. cbn [fst snd first_name].
    destruct (m !! k); [done|]. by destruct (i =? k).
Qed.

Lemma insert_pairs_subseteq ps : forall (m : gmap Z (list Z)), m ⊆ insert_pairs ps m.
Proof.
  intros m. apply map_subseteq_spec. intros k w Hk.
  by rewrite insert_pairs_lookup, Hk.
Qed.

Lemma parseVarint_eq_acc buf v pre post pos end_ r :
  buf = pre ++ leb128 v ++ post -> pos = len pre ->
  is_u32 v -> pos + len (leb128 v) <= end_ ->
  parseVarint buf pos end_ r =
    if wrap32 (r + v) =? UINT32_MAX then None
    else Some (pos + len (leb128 v), wrap32 (r + v)).
Proof. intros -> -> Hv Hend. by apply parseVarint_leb128. Qed.

(** The prologue on a type byte and an encoded length, with the two ways
    it can fail. *)
Lemma section_prologue_cases buf t L pre post pos end_ :
  buf = pre ++ t :: leb128 L ++ post -> pos = len pre ->
  is_u32 L -> pos + 1 + len (leb128 L) <= end_ ->
  section_prologue buf pos end_ =
    if (L =? UINT32_MAX) || (pos + 1 + len (leb128 L) + L >? end_) then None
    else Some (t, pos + 1 + len (leb128 L), L).
Proof.
  intros Hbuf Hpos HL Hend. unfold section_prologue.
  pose proof (leb128_length L) as Hl.
  destruct (Z.gtb_spec (pos + 1) end_) as [?|_]; [lia|].
  rewrite (parseVarint_eq_acc buf L (pre ++ [t]) post);
    [| subst buf; norm_app | norm_len; lia | done | lia].
  rewrite Z.add_0_l. unfold is_u32 in HL. rewrite wrap32_small by done.
  rewrite (byte_at_eq buf pre t (leb128 L ++ post)) by done.
  destruct (Z.eqb_spec L UINT32_MAX); [done|]. cbn [orb]. done.
Qed.

(** A function-name subsection whose declared size is not the size of its
    pair vector stops the scan with [false]. *)
Lemma name_loop_bad_size fuel buf pre declared ps post end_ ret :
  buf = pre ++ (1 :: leb128 declared ++ namemap_body ps) ++ post ->
  is_u32 declared -> Forall wf_pair ps -> len (namemap_body ps) < UINT32_MAX ->
  len pre + 1 + len (leb128 declared) + len (namemap_body ps) <= end_ ->
  declared <> len (namemap_body ps) ->
  exists ret', name_loop (S fuel) buf (len pre) end_ ret = Some (false, ret').
Proof.
  intros Hbuf Hd Hps HL Hend Hne.
  pose proof (leb128_length declared) as Hld.
  pose proof (pairs_count_le ps) as Hcnt.
  pose proof (leb128_length (Z.of_nat (length ps))) as Hlc.
  pose proof (len_nonneg (flat_map enc_pair ps)) as Hf0.
  rewrite namemap_body_len in *.
  rewrite name_loop_S.
  destruct (Z.ltb_spec (len pre) end_) as [_|?]; [|lia].
  rewrite (section_prologue_cases buf 1 declared pre (namemap_body ps ++ post));
    [| subst buf; norm_app | done | done | lia].
  destruct ((declared =? UINT32_MAX)
            || (len pre + 1 + len (leb128 declared) + declared >? end_)) eqn:Hc.
  { by exists ret. }
  apply orb_false_iff in Hc as [_ Hc]. rewrite Z.gtb_ltb in Hc. apply Z.ltb_ge in Hc.
  cbn [Z.eqb Pos.eqb negb].
  rewrite (parseVarint_eq buf (Z.of_nat (length ps)) (pre ++ 1 :: leb128 declared)
             (flat_map enc_pair ps ++ post));
    [| subst buf; unfold namemap_body; norm_app | norm_len; lia | lia | lia].
  set (pos2 := len pre + 1 + len (leb128 declared) + len (leb128 (Z.of_nat (length ps)))).
  destruct (Z.gtb_spec (pos2 + Z.of_nat (length ps)) end_) as [?|_]; [lia|].
  rewrite Nat2Z.id.
  replace pos2
    with (len ((pre ++ 1 :: leb128 declared) ++ leb128 (Z.of_nat (length ps))))
    by (subst pos2; norm_len; lia).
  rewrite (namemap_loop_pairs ps _ post buf end_ ret);
    [| subst buf; unfold namemap_body; norm_app | done | lia | norm_len; lia].
  match goal with |- context [negb (?a =? ?b)] =>
    destruct (Z.eqb_spec a b) as [Heq|_] end.
  { exfalso. apply Hne. norm_len. lia. }
  cbn [negb]. by eexists.
Qed.

(** The same, for the whole operation: the name section holds well-formed
    subsections, then the subsection with the wrong size. *)
Lemma getFunctionNameIndex_bad_size version pre subs declared ps tail post ret :
  let data :=
    enc_subsections subs ++ (1 :: leb128 declared ++ namemap_body ps) ++ tail in
  let bytecode :=
    wasm_header version ++ enc_sections pre
    ++ enc_section (Custom name_str data) ++ post in
  len version = 4 ->
  len bytecode < 2 ^ 64 ->
  Forall wf_section pre ->
  Forall (fun s => custom_named name_str s = false) pre ->
  wf_section (Custom name_str data) ->
  Forall wf_subsection subs ->
  is_u32 declared -> Forall wf_pair ps -> len (namemap_body ps) < UINT32_MAX ->
  declared <> len (namemap_body ps) ->
  exists ret', getFunctionNameIndex bytecode ret = Some (false, ret').
Proof.
  intros data bytecode Hv H64 Hwf Hnm Hs Hsubs Hd Hps HL Hne.
  pose proof (getFunctionNameIndex_data version pre data post ret
                Hv H64 Hwf Hnm Hs) as Hdat.
  cbn zeta in Hdat. fold bytecode in Hdat. rewrite Hdat. clear Hdat.
  pose proof (leb128_length declared) as Hld.
  pose proof (len_nonneg (namemap_body ps)) as Hb0.
  pose proof (len_nonneg (enc_subsections subs)) as Hs0.
  pose proof (len_nonneg tail) as Ht0. pose proof (len_nonneg post) as Hp0.
  assert (len data = len (enc_subsections subs)
                     + (1 + len (leb128 declared) + len (namemap_body ps)) + len tail)
    as Hdl by (subst data; norm_len; lia).
  destruct (Z.eqb_spec (len data) 0) as [?|_]; [lia|].
  set (P := name_prefix version pre data).
  pose proof (len_nonneg P).
  assert (bytecode = P ++ enc_subsections subs
                     ++ ((1 :: leb128 declared ++ namemap_body ps) ++ tail ++ post))
    as Hbuf.
  { subst bytecode P. rewrite name_prefix_module. subst data. norm_app. }
  destruct (name_loop_steps subs P
              ((1 :: leb128 declared ++ namemap_body ps) ++ tail ++ post)
              (length bytecode) bytecode (len P + len data) ret)
    as (fuel' & Hf' & Heq); try done; try lia.
  { fold (len bytecode). rewrite Hbuf. norm_len. lia. }
  rewrite Heq. clear Heq.
  destruct fuel' as [|fuel']; [lia|].
  replace (len P + len (enc_subsections subs))
    with (len (P ++ enc_subsections subs)) by (rewrite len_app; lia).
  apply name_loop_bad_size with (declared := declared) (ps := ps) (post := tail ++ post);
    try done.
  - rewrite Hbuf. norm_app.
  - rewrite len_app. lia.
Qed.

(** * [getAbiVersion] on encoded modules *)

Lemma enc_export_len e :
  len (enc_export e) =
  len (leb128 (len (exp_name e))) + len (exp_name e) + 1 + len (leb128 (exp_index e)).
Proof. unfold enc_export. rewrite len_app, enc_name_len, len_cons. lia. Qed.

Lemma exports_count_le es : Z.of_nat (length es) <= len (flat_map enc_export es).
Proof.
  induction es as [|e es IH]; [done|].
  cbn [flat_map length]. rewrite len_app, enc_export_len.
  pose proof (leb128_length (len (exp_name e))). pose proof (leb128_length (exp_index e)).
  pose proof (len_nonneg (exp_name e)). lia.
Qed.

Lemma abi_of_export_name_len n v : abi_of_export_name n = Some v -> len n = 23.
Proof.
  unfold abi_of_export_name.
  repeat match goal with
  | |- context [bytes_eqb n ?s] =>
      destruct (bytes_eqb n s) eqn:Hx;
      [apply bytes_eqb_eq in Hx; subst n; intros _; reflexivity | clear Hx]
  end.
  discriminate.
Qed.

Lemma exports_loop_first es : forall pre post buf end_,
  buf = pre ++ flat_map enc_export es ++ post ->
  len pre + len (flat_map enc_export es) <= end_ ->
  exports_ok es ->
  exports_loop (length es) buf (len pre) end_ = (true, first_abi es).
Proof.
  induction es as [|e es IH]; intros pre post buf end_ Hbuf Hend Hok; [done|].
  cbn [flat_map length exports_loop first_abi exports_ok] in *.
  rewrite len_app, enc_export_len in Hend.
  pose proof (leb128_length (len (exp_name e))). pose proof (leb128_length (exp_index e)).
  pose proof (len_nonneg (exp_name e)). pose proof (len_nonneg (flat_map enc_export es)).
  assert (len (exp_name e) < UINT32_MAX) as Hn.
  { destruct (export_abi e) eqn:Ha; [|apply Hok].
    unfold export_abi in Ha. destruct (exp_kind e =? 0); [|done].
    by rewrite (abi_of_export_name_len _ _ Ha). }
  destruct (custom_name_read buf pre (exp_name e)
              (exp_kind e :: leb128 (exp_index e)) (flat_map enc_export es ++ post)
              (len pre) end_) as [Hpv Hsub].
  { subst buf. unfold enc_export. norm_app. }
  { done. } { done. } { rewrite enc_name_len. lia. }
  rewrite Hpv, Hsub.
  set (pos2 := len pre + len (leb128 (len (exp_name e))) + len (exp_name e)).
  destruct (Z.gtb_spec pos2 end_) as [?|_]; [lia|].
  destruct (Z.gtb_spec (pos2 + 1) end_) as [?|_]; [lia|].
  rewrite (byte_at_eq buf (pre ++ enc_name (exp_name e)) (exp_kind e)
             (leb128 (exp_index e) ++ flat_map enc_export es ++ post));
    [| subst buf; unfold enc_export; norm_app
     | subst pos2; rewrite len_app, enc_name_len; lia].
  fold (export_abi e). destruct (export_abi e) as [v|]; [done|].
  destruct Hok as [(_ & Hidx & Hsum) Hok].
  rewrite (parseVarint_eq_acc buf (exp_index e)
             (pre ++ enc_name (exp_name e) ++ [exp_kind e])
             (flat_map enc_export es ++ post));
    [| subst buf; unfold enc_export; norm_app
     | subst pos2; rewrite !len_app, enc_name_len, len_cons, len_nil; lia
     | done | lia].
  destruct (Z.eqb_spec (wrap32 (len (exp_name e) + exp_index e)) UINT32_MAX); [done|].
  replace (pos2 + 1 + len (leb128 (exp_index e))) with (len (pre ++ enc_export e))
    by (subst pos2; rewrite len_app, enc_export_len; lia).
  apply (IH (pre ++ enc_export e) post); [subst buf; norm_app | | done].
  rewrite len_app, enc_export_len. lia.
Qed.

Lemma abi_loop_S fuel buf pos end_ :
  abi_loop (S fuel) buf pos end_ =
  if pos <? end_ then
    match section_prologue buf pos end_ with
    | None => Some (false, Unknown)
    | Some (section_type, pos1, section_len) =>
        if section_type =? 7 then
          match parseVarint buf pos1 end_ 0 with
          | None => Some (false, Unknown)
          | Some (pos2, export_vector_size) =>
              if pos2 + export_vector_size >? end_ then Some (false, Unknown)
              else Some (exports_loop (Z.to_nat export_vector_size) buf pos2 end_)
          end
        else abi_loop fuel buf (pos1 + section_len) end_
    end
  else Some (true, Unknown).
Proof. reflexivity. Qed.

Lemma abi_loop_skip ss : forall pre post fuel buf,
  buf = pre ++ enc_sections ss ++ post ->
  Forall wf_section ss ->
  Forall (fun s => sec_type s <> 7) ss ->
  len (enc_sections ss) + len post <= Z.of_nat fuel ->
  exists fuel', len post <= Z.of_nat fuel' /\
    abi_loop fuel buf (len pre) (len buf) =
    abi_loop fuel' buf (len pre + len (enc_sections ss)) (len buf).
Proof.
  induction ss as [|s ss IH]; intros pre post fuel buf Hbuf Hwf Hty Hfuel.
  - exists fuel. change (enc_sections []) with (@nil Z) in *.
    rewrite len_nil in *. rewrite Z.add_0_r. split; [lia | done].
  - rewrite enc_sections_cons in *.
    apply Forall_cons in Hwf as [[HL _] Hwf]. apply Forall_cons in Hty as [Hs Hty].
    pose proof (enc_section_len s) as Hsl.
    pose proof (leb128_length (len (sec_payload s))) as Hll.
    pose proof (len_nonneg (sec_payload s)) as Hp0.
    pose proof (len_nonneg post) as Hpost0.
    pose proof (len_nonneg (enc_sections ss)) as Hss0.
    assert (len buf = len pre + len (enc_section s) + len (enc_sections ss) + len post)
      as Hlen by (subst buf; norm_len; lia).
    rewrite len_app in Hfuel.
    destruct fuel as [|fuel]; [lia|].
    destruct (IH (pre ++ enc_section s) post fuel buf) as (fuel' & Hf' & Heq);
      [subst buf; norm_app | done | done | lia |].
    exists fuel'. split; [done|].
    rewrite abi_loop_S.
    destruct (Z.ltb_spec (len pre) (len buf)) as [_|?]; [|lia].
    rewrite (section_prologue_section buf s pre (enc_sections ss ++ post));
      [| subst buf; norm_app | done | done | lia].
    destruct (Z.eqb_spec (sec_type s) 7) as [?|_]; [done|].
    replace (len pre + 1 + len (leb128 (len (sec_payload s))) + len (sec_payload s))
      with (len pre + len (enc_section s)) by lia.
    rewrite len_app in Heq |- *. rewrite Heq. f_equal; lia.
Qed.

Lemma getAbiVersion_no_exports version ss :
  len version = 4 ->
  Forall wf_section ss ->
  Forall (fun s => sec_type s <> 7) ss ->
  getAbiVersion (wasm_header version ++ enc_sections ss) = Some (true, Unknown).
Proof.
  intros Hv Hwf Hty. unfold getAbiVersion.
  rewrite checkWasmHeader_header. cbn [negb].
  pose proof (wasm_header_len version Hv) as Hh.
  set (buf := wasm_header version ++ enc_sections ss).
  destruct (abi_loop_skip ss (wasm_header version) [] (length buf) buf)
    as (fuel' & _ & Heq); try done.
  { subst buf. by rewrite app_nil_r. }
  { fold (len buf). subst buf. norm_len. lia. }
  rewrite Hh in Heq. rewrite Heq.
  replace (8 + len (enc_sections ss)) with (len buf)
    by (subst buf; rewrite len_app; lia).
  destruct fuel'; simpl; by rewrite Z.ltb_irrefl.
Qed.

(** The first export section decides: the answer is the version of its
    first export that announces one. *)
Lemma getAbiVersion_exports version pre es post :
  len version = 4 ->
  Forall wf_section pre ->
  Forall (fun s => sec_type s <> 7) pre ->
  wf_section (export_section es) ->
  exports_ok es ->
  getAbiVersion
    (wasm_header version ++ enc_sections pre ++ enc_section (export_section es) ++ post)
  = Some (true, first_abi es).
Proof.
  intros Hv Hwf Hty [HL _] Hok. unfold getAbiVersion.
  rewrite checkWasmHeader_header. cbn [negb].
  pose proof (wasm_header_len version Hv) as Hh.
  set (s := export_section es) in *.
  set (buf := wasm_header version ++ enc_sections pre ++ enc_section s ++ post).
  pose proof (enc_section_len s) as Hsl.
  pose proof (leb128_length (len (sec_payload s))) as Hll.
  pose proof (len_nonneg (sec_payload s)) as Hp0.
  pose proof (len_nonneg post). pose proof (len_nonneg (enc_sections pre)).
  pose proof (exports_count_le es) as Hcnt.
  pose proof (leb128_length (Z.of_nat (length es))) as Hlc.
  assert (len (sec_payload s)
          = len (leb128 (Z.of_nat (length es))) + len (flat_map enc_export es)) as Hpl.
  { subst s. cbn [export_section sec_payload]. unfold export_payload. by rewrite len_app. }
  assert (len buf = 8 + len (enc_sections pre) + len (enc_section s) + len post) as Hlen.
  { subst buf. norm_len. lia. }
  destruct (abi_loop_skip pre (wasm_header version) (enc_section s ++ post)
              (length buf) buf) as (fuel' & Hf' & Heq); try done.
  { fold (len buf). rewrite Hlen, len_app. lia. }
  rewrite Hh in Heq. rewrite Heq. clear Heq.
  rewrite len_app in Hf'.
  destruct fuel' as [|fuel']; [lia|].
  rewrite abi_loop_S.
  destruct (Z.ltb_spec (8 + len (enc_sections pre)) (len buf)) as [_|?]; [|lia].
  rewrite (section_prologue_section buf s (wasm_header version ++ enc_sections pre) post);
    [| subst buf; norm_app | norm_len; lia | done | lia].
  change (sec_type s) with 7. cbn [Z.eqb Pos.eqb].
  set (pos1 := 8 + len (enc_sections pre) + 1 + len (leb128 (len (sec_payload s)))).
  rewrite (parseVarint_eq buf (Z.of_nat (length es))
             ((wasm_header version ++ enc_sections pre)
              ++ 7 :: leb128 (len (sec_payload s)))
             (flat_map enc_export es ++ post));
    [| subst buf s; unfold enc_section, export_section, export_payload;
       cbn [sec_type sec_payload]; norm_app
     | subst pos1; norm_len; lia | lia | lia].
  destruct (Z.gtb_spec (pos1 + len (leb128 (Z.of_nat (length es)))
                        + Z.of_nat (length es)) (len buf)) as [?|_]; [lia|].
  rewrite Nat2Z.id. f_equal.
  replace (pos1 + len (leb128 (Z.of_nat (length es))))
    with (len (((wasm_header version ++ enc_sections pre)
                ++ 7 :: leb128 (len (sec_payload s)))
               ++ leb128 (Z.of_nat (length es))))
    by (subst pos1; norm_len; lia).
  apply exports_loop_first with (post := post); [| | done].
  - subst buf s. unfold enc_section, export_section, export_payload.
    cbn [sec_type sec_payload]. norm_app.
  - norm_len. lia.
Qed.

(** * Termination: the loops never run out of fuel *)

Lemma wrap32_range a : 0 <= wrap32 a < 2 ^ 32.
Proof. unfold wrap32. apply Z.mod_pos_bound. lia. Qed.

Lemma parseVarint_from_bounds room : forall buf pos s r pos' v,
  parseVarint_from room buf pos s r = Some (pos', v) ->
  pos < pos' <= pos + Z.of_nat room /\ 0 <= v < 2 ^ 32.
Proof.
  induction room as [|room IH]; intros buf pos s r pos' v H; [done|].
  cbn [parseVarint_from] in H.
  destruct (negb (Z.land (byte_at buf pos) 128 =? 0)).
  - apply IH in H. lia.
  - destruct (_ =? UINT32_MAX); [done|]. injection H as <- <-.
    split; [lia | apply wrap32_range].
Qed.

Lemma parseVarint_bounds buf pos end_ r pos' v :
  parseVarint buf pos end_ r = Some (pos', v) ->
  pos < pos' <= end_ /\ 0 <= v < 2 ^ 32.
Proof.
  unfold parseVarint. intros H. apply parseVarint_from_bounds in H. lia.
Qed.

Lemma section_prologue_bounds buf pos end_ t pos1 L :
  section_prologue buf pos end_ = Some (t, pos1, L) ->
  pos + 1 < pos1 /\ 0 <= L /\ pos1 + L <= end_.
Proof.
  unfold section_prologue. destruct (pos + 1 >? end_); [done|].
  destruct (parseVarint buf (pos + 1) end_ 0) as [[p l]|] eqn:Hpv; [|done].
  apply parseVarint_bounds in Hpv.
  destruct (Z.gtb_spec (p + l) end_); [done|]. intros [= <- <- <-]. lia.
Qed.

Lemma abi_loop_total fuel : forall buf pos end_,
  end_ - pos <= Z.of_nat fuel -> is_Some (abi_loop fuel buf pos end_).
Proof.
  induction fuel as [|fuel IH]; intros buf pos end_ Hf.
  - cbn. destruct (Z.ltb_spec pos end_); [lia | done].
  - rewrite abi_loop_S. destruct (Z.ltb_spec pos end_); [|done].
    destruct (section_prologue buf pos end_) as [[[t pos1] L]|] eqn:Hp; [|done].
    apply section_prologue_bounds in Hp.
    destruct (t =? 7).
    + destruct (parseVarint buf pos1 end_ 0) as [[p n]|]; [|done].
      by destruct (p + n >? end_).
    + apply IH. lia.
Qed.

Lemma custom_loop_total fuel : forall buf name pos end_ ret,
  end_ - pos <= Z.of_nat fuel -> is_Some (custom_loop fuel buf name pos end_ ret).
Proof.
  induction fuel as [|fuel IH]; intros buf name pos end_ ret Hf.
  - cbn. destruct (Z.ltb_spec pos end_); [lia | done].
  - rewrite custom_loop_S. destruct (Z.ltb_spec pos end_); [|done].
    destruct (section_prologue buf pos end_) as [[[t pos1] L]|] eqn:Hp; [|done].
    apply section_prologue_bounds in Hp.
    destruct (t =? 0); [|apply IH; lia].
    destruct (parseVarint buf pos1 end_ 0) as [[p n]|]; [|done].
    destruct (p + n >? end_); [done|].
    destruct (_ && _); [done|]. apply IH. lia.
Qed.

Lemma strip_loop_total fuel : forall buf pos end_ ret,
  end_ - pos <= Z.of_nat fuel -> is_Some (strip_loop fuel buf pos end_ ret).
Proof.
  induction fuel as [|fuel IH]; intros buf pos end_ ret Hf.
  - cbn. destruct (Z.ltb_spec pos end_); [lia | done].
  - rewrite strip_loop_S. destruct (Z.ltb_spec pos end_); [|done].
    destruct (section_prologue buf pos end_) as [[[t pos1] L]|] eqn:Hp; [|done].
    apply section_prologue_bounds in Hp.
    destruct (t =? 0); [|apply IH; lia].
    destruct (parseVarint buf pos1 end_ 0) as [[p n]|]; [|done].
    destruct (p + n >? end_); [done|]. apply IH. lia.
Qed.

Lemma namemap_loop_bounds n : forall buf pos end_ ret pos' ret',
  namemap_loop n buf pos end_ ret = (Some pos', ret') -> pos <= pos'.
Proof.
  induction n as [|n IH]; intros buf pos end_ ret pos' ret' H.
  - cbn in H. injection H as <- <-. lia.
  - cbn [namemap_loop] in H.
    destruct (parseVarint buf pos end_ 0) as [[p1 i]|] eqn:H1; [|done].
    destruct (parseVarint buf p1 end_ 0) as [[p2 l]|] eqn:H2; [|done].
    apply parseVarint_bounds in H1, H2.
    destruct (p2 + l >? end_); [done|]. apply IH in H. lia.
Qed.

Lemma name_loop_total fuel : forall buf pos end_ ret,
  end_ - pos <= Z.of_nat fuel -> is_Some (name_loop fuel buf pos end_ ret).
Proof.
  induction fuel as [|fuel IH]; intros buf pos end_ ret Hf.
  - cbn. destruct (Z.ltb_spec pos end_); [lia | done].
  - rewrite name_loop_S. destruct (Z.ltb_spec pos end_); [|done].
    destruct (section_prologue buf pos end_) as [[[t pos1] L]|] eqn:Hp; [|done].
    apply section_prologue_bounds in Hp.
    destruct (negb (t =? 1)); [apply IH; lia|].
    destruct (parseVarint buf pos1 end_ 0) as [[p n]|] eqn:Hpv; [|done].
    apply parseVarint_bounds in Hpv.
    destruct (p + n >? end_); [done|].
    destruct (namemap_loop (Z.to_nat n) buf p end_ ret) as [[p3|] ret'] eqn:Hn; [|done].
    apply namemap_loop_bounds in Hn.
    destruct (negb (pos1 + L =? p3)); [done|]. apply IH. lia.
Qed.

(** Each of the four operations returns on every input. *)
Lemma getAbiVersion_total bytecode : is_Some (getAbiVersion bytecode).
Proof.
  unfold getAbiVersion. destruct (negb (checkWasmHeader bytecode)); [done|].
  apply abi_loop_total. unfold len. lia.
Qed.

Lemma getCustomSection_total bytecode name ret :
  is_Some (getCustomSection bytecode name ret).
Proof.
  unfold getCustomSection. destruct (negb (checkWasmHeader bytecode)); [done|].
  apply custom_loop_total. unfold len. lia.
Qed.

Lemma getStrippedSource_total bytecode ret : is_Some (getStrippedSource bytecode ret).
Proof.
  unfold getStrippedSource. destruct (negb (checkWasmHeader bytecode)); [done|].
  apply strip_loop_total. unfold len. lia.
Qed.

(** What [getCustomSection] can leave in [ret]: the value on entry, or a
    range that starts and ends inside the part of the buffer being walked. *)
Lemma custom_loop_range fuel : forall buf name pos end_ ret b sv,
  custom_loop fuel buf name pos end_ ret = Some (b, sv) ->
  sv = ret \/
  exists p e, sv = mk_sv (Some p) (wrap64 (e - p)) /\ pos < p <= end_ /\ pos < e <= end_.
Proof.
  induction fuel as [|fuel IH]; intros buf name pos end_ ret b sv H.
  - cbn in H. destruct (pos <? end_); [done|]. injection H as <- <-. by left.
  - rewrite custom_loop_S in H. destruct (Z.ltb_spec pos end_); [|by left; congruence].
    destruct (section_prologue buf pos end_) as [[[t pos1] L]|] eqn:Hp;
      [|by left; congruence].
    apply section_prologue_bounds in Hp.
    assert (forall r, custom_loop fuel buf name (pos1 + L) end_ ret = Some r ->
            r = (b, sv) ->
            sv = ret \/ exists p e, sv = mk_sv (Some p) (wrap64 (e - p))
                                    /\ pos < p <= end_ /\ pos < e <= end_) as Hrec.
    { intros r Hr ->. apply IH in Hr as [?|(p & e & ? & ? & ?)]; [by left|].
      right. exists p, e. split; [done|]. lia. }
    destruct (t =? 0); [|by eapply Hrec].
    destruct (parseVarint buf pos1 end_ 0) as [[p n]|] eqn:Hpv; [|by left; congruence].
    apply parseVarint_bounds in Hpv.
    destruct (Z.gtb_spec (p + n) end_); [by left; congruence|].
    destruct (_ && _); [|by eapply Hrec].
    injection H as <- <-. right. exists (p + n), (pos1 + L). split; [done|]. lia.
Qed.

Lemma getFunctionNameIndex_total bytecode ret :
  len bytecode < 2 ^ 64 -> is_Some (getFunctionNameIndex bytecode ret).
Proof.
  intros H64. unfold getFunctionNameIndex.
  destruct (getCustomSection_total bytecode (bytes_of_string "name") sv_default)
    as [[b sv] Hc].
  rewrite Hc. destruct b; [|done].
  destruct (negb (sv_empty sv)) eqn:He; [|done].
  unfold getCustomSection in Hc.
  destruct (negb (checkWasmHeader bytecode)); [done|].
  apply custom_loop_range in Hc as [->|(p & e & -> & Hp & He')]; [done|].
  cbn [sv_data sv_size default from_option id]. apply name_loop_total.
  replace (wrap64 (p + wrap64 (e - p))) with e; [unfold len in *; lia|].
  unfold wrap64. rewrite Zplus_mod_idemp_r.
  replace (p + (e - p)) with e by lia. symmetry. apply Z.mod_small. lia.
Qed.

(** * The outputs only grow *)

Lemma umap_insert_subseteq k v (m : gmap Z (list Z)) : m ⊆ umap_insert k v m.
Proof.
  unfold umap_insert. destruct (m !! k) eqn:Hk; [done|]. by apply insert_subseteq.
Qed.

Lemma namemap_loop_subseteq n : forall buf pos end_ (ret : gmap Z (list Z)),
  ret ⊆ snd (namemap_loop n buf pos end_ ret).
Proof.
  induction n as [|n IH]; intros buf pos end_ ret; [done|].
  cbn [namemap_loop].
  destruct (parseVarint buf pos end_ 0) as [[p1 i]|]; [|done].
  destruct (parseVarint buf p1 end_ 0) as [[p2 l]|]; [|done].
  destruct (p2 + l >? end_); [done|].
  etransitivity; [apply (umap_insert_subseteq i (sub buf p2 l))|]. apply IH.
Qed.

Lemma name_loop_subseteq fuel : forall buf pos end_ (ret : gmap Z (list Z)) b ret',
  name_loop fuel buf pos end_ ret = Some (b, ret') -> ret ⊆ ret'.
Proof.
  induction fuel as [|fuel IH]; intros buf pos end_ ret b ret' H.
  - cbn in H. destruct (pos <? end_); [done|]. by injection H as <- <-.
  - rewrite name_loop_S in H. destruct (pos <? end_); [|by injection H as <- <-].
    destruct (section_prologue buf pos end_) as [[[t pos1] L]|];
      [|by injection H as <- <-].
    destruct (negb (t =? 1)); [by eapply IH|].
    destruct (parseVarint buf pos1 end_ 0) as [[p n]|]; [|by injection H as <- <-].
    destruct (p + n >? end_); [by injection H as <- <-|].
    pose proof (namemap_loop_subseteq (Z.to_nat n) buf p end_ ret) as Hn.
    destruct (namemap_loop (Z.to_nat n) buf p end_ ret) as [[p3|] r]; cbn [snd] in Hn;
      [|by injection H as <- <-].
    destruct (negb (pos1 + L =? p3)); [by injection H as <- <-|].
    etransitivity; [exact Hn|]. by eapply IH.
Qed.

Lemma getFunctionNameIndex_subseteq bytecode (ret : gmap Z (list Z)) b ret' :
  getFunctionNameIndex bytecode ret = Some (b, ret') -> ret ⊆ ret'.
Proof.
  unfold getFunctionNameIndex.
  destruct (getCustomSection bytecode (bytes_of_string "name") sv_default)
    as [[[] sv]|]; [| by intros [= <- <-] | done].
  destruct (negb (sv_empty sv)); [apply name_loop_subseteq | by intros [= <- <-]].
Qed.

Lemma strip_loop_prefix fuel : forall buf pos end_ ret b ret',
  strip_loop fuel buf pos end_ ret = Some (b, ret') -> ret `prefix_of` ret'.
Proof.
  induction fuel as [|fuel IH]; intros buf pos end_ ret b ret' H.
  - cbn in H. destruct (pos <? end_); [done|]. injection H as <- <-.
    destruct ret; [apply prefix_nil | done].
  - rewrite strip_loop_S in H. destruct (pos <? end_).
    2:{ injection H as <- <-. destruct ret; [apply prefix_nil | done]. }
    destruct (section_prologue buf pos end_) as [[[t pos1] L]|];
      [|by injection H as <- <-].
    destruct (t =? 0).
    + destruct (parseVarint buf pos1 end_ 0) as [[p n]|]; [|by injection H as <- <-].
      destruct (p + n >? end_); [by injection H as <- <-|].
      apply IH in H. etransitivity; [|exact H].
      destruct (sv_find _ _); [|done]. destruct (is_nil ret); [|done].
      by apply prefix_app_r.
    + apply IH in H. etransitivity; [|exact H].
      destruct (negb (is_nil ret)); [|done]. by apply prefix_app_r.
Qed.

Lemma getStrippedSource_prefix bytecode ret b ret' :
  getStrippedSource bytecode ret = Some (b, ret') -> ret `prefix_of` ret'.
Proof.
  unfold getStrippedSource.
  destruct (negb (checkWasmHeader bytecode)); [by intros [= <- <-]|].
  apply strip_loop_prefix.
Qed.

(** * The varint decoder on arbitrary bytes *)

Lemma parseVarint_from_unterminated room : forall buf pos s r,
  (forall i, pos <= i < pos + Z.of_nat room -> Z.land (byte_at buf i) 128 <> 0) ->
  parseVarint_from room buf pos s r = None.
Proof.
  induction room as [|room IH]; intros buf pos s r Hc; [done|].
  cbn [parseVarint_from].
  destruct (Z.eqb_spec (Z.land (byte_at buf pos) 128) 0) as [H0|_].
  - exfalso. apply (Hc pos); [lia | done].
  - cbn [negb]. apply IH. intros i Hi. apply Hc. lia.
Qed.

Lemma parseVarint_unterminated buf pos end_ r :
  (forall i, pos <= i < end_ -> Z.land (byte_at buf i) 128 <> 0) ->
  parseVarint buf pos end_ r = None.
Proof.
  intros Hc. unfold parseVarint. apply parseVarint_from_unterminated.
  intros i Hi. apply Hc. lia.
Qed.





(** * The header check *)

Lemma checkWasmHeader_spec bytecode :
  checkWasmHeader bytecode = true <->
  len bytecode < 8 \/ sub bytecode 0 4 = wasm_magic_number.
Proof.
  unfold checkWasmHeader. rewrite orb_true_iff, Z.ltb_lt, bytes_eqb_eq. tauto.
Qed.

Lemma checkWasmHeader_short bytecode : len bytecode < 8 -> checkWasmHeader bytecode = true.
Proof. intros H. apply checkWasmHeader_spec. by left. Qed.

(** A short buffer passes the check and the loops have nothing to walk:
    [data() + 8] is not below [data() + size()]. *)
Lemma short_buffer_accepted bytecode name sv m out :
  len bytecode < 8 ->
  getAbiVersion bytecode = Some (true, Unknown) /\
  getCustomSection bytecode name sv = Some (true, sv) /\
  getFunctionNameIndex bytecode m = Some (true, m) /\
  getStrippedSource bytecode out = Some (true, if is_nil out then bytecode else out).
Proof.
  intros Hs.
  assert (forall name sv, getCustomSection bytecode name sv = Some (true, sv)) as Hc.
  { intros n v. unfold getCustomSection. rewrite checkWasmHeader_short by done.
    cbn [negb]. destruct (length bytecode); cbn [custom_loop];
      destruct (Z.ltb_spec 8 (len bytecode)); done || lia. }
  repeat split.
  - unfold getAbiVersion. rewrite checkWasmHeader_short by done.
    cbn [negb]. destruct (length bytecode); cbn [abi_loop];
      destruct (Z.ltb_spec 8 (len bytecode)); done || lia.
  - apply Hc.
  - unfold getFunctionNameIndex. by rewrite Hc.
  - unfold getStrippedSource. rewrite checkWasmHeader_short by done.
    cbn [negb]. destruct (length bytecode); cbn [strip_loop];
      destruct (Z.ltb_spec 8 (len bytecode)); done || lia.
Qed.

(** A buffer that fails the check is rejected by all four operations,
    which leave their outputs as they were. *)
Lemma bad_header_rejected bytecode name sv m out :
  checkWasmHeader bytecode = false ->
  getAbiVersion bytecode = Some (false, Unknown) /\
  getCustomSection bytecode name sv = Some (false, sv) /\
  getFunctionNameIndex bytecode m = Some (false, m) /\
  getStrippedSource bytecode out = Some (false, out).
Proof.
  intros Hh. unfold getFunctionNameIndex, getAbiVersion, getCustomSection, getStrippedSource.
  rewrite Hh. done.
Qed.

(** * Facts about [first_abi] and [exports_ok] *)

Lemma first_abi_hit es1 e es2 v :
  Forall passed_over es1 -> export_abi e = Some v ->
  first_abi (es1 ++ e :: es2) = v.
Proof.
  intros H1 He. induction H1 as [|x es1 [Hx _] _ IH]; cbn [app first_abi].
  - by rewrite He.
  - by rewrite Hx.
Qed.

Lemma exports_ok_hit es1 e es2 v :
  Forall passed_over es1 -> export_abi e = Some v ->
  exports_ok (es1 ++ e :: es2).
Proof.
  intros H1 He. induction H1 as [|x es1 [Hx Hs] _ IH]; cbn [app exports_ok].
  - by rewrite He.
  - by rewrite Hx.
Qed.

Lemma first_abi_none es : Forall passed_over es -> first_abi es = Unknown.
Proof.
  intros H. induction H as [|x es [Hx _] _ IH]; [done|].
  cbn [first_abi]. by rewrite Hx.
Qed.

Lemma exports_ok_none es : Forall passed_over es -> exports_ok es.
Proof.
  intros H. induction H as [|x es [Hx Hs] _ IH]; [done|].
  cbn [exports_ok]. by rewrite Hx.
Qed.

(** * Further properties of the scanners *)

(** What a successful decode has read: continuation bytes, then one byte
    with a clear high bit, all before [end]. *)
Lemma parseVarint_from_consumed room : forall buf pos s r pos' v,
  parseVarint_from room buf pos s r = Some (pos', v) ->
  pos < pos' <= pos + Z.of_nat room /\
  0 <= v < UINT32_MAX /\
  Z.testbit (byte_at buf (pos' - 1)) 7 = false /\
  (forall i, pos <= i < pos' - 1 -> Z.testbit (byte_at buf i) 7 = true).
Proof.
  induction room as [|room IH]; intros buf pos s r pos' v H; [done|].
  cbn [parseVarint_from] in H. rewrite land_128, negb_involutive in H.
  destruct (Z.testbit (byte_at buf pos) 7) eqn:Hb.
  - apply IH in H as (Hp & Hv & Hlast & Hcont).
    repeat split; try lia; try done.
    intros i Hi. destruct (Z.eq_dec i pos) as [->|Hne]; [done|]. apply Hcont. lia.
  - destruct (Z.eqb_spec (wrap32 (r + shl32 (Z.land (byte_at buf pos) 127) s)) UINT32_MAX)
      as [?|Hne]; [done|].
    injection H as <- <-.
    pose proof (wrap32_range (r + shl32 (Z.land (byte_at buf pos) 127) s)) as Hr.
    change (2 ^ 32) with 4294967296 in Hr. unfold UINT32_MAX in *.
    replace (pos + 1 - 1) with pos by lia.
    repeat split; try lia; try done.
Qed.

Lemma custom_data_sub version pre name data post :
  len version = 4 ->
  sub (wasm_header version ++ enc_sections pre ++ enc_section (Custom name data) ++ post)
      (custom_data_pos pre name data) (len data) = data.
Proof.
  intros Hv.
  apply sub_eq with
    (pre := wasm_header version ++ enc_sections pre
            ++ 0 :: leb128 (len (sec_payload (Custom name data))) ++ enc_name name)
    (post := post).
  - unfold enc_section. cbn [sec_type sec_payload]. norm_app.
  - unfold custom_data_pos.
    rewrite !len_app, len_cons, len_app, enc_name_len, (wasm_header_len version Hv). lia.
  - done.
Qed.

(** The export loop gets past exports that announce nothing. *)
Lemma exports_loop_skip es1 : forall pre post buf end_ n,
  buf = pre ++ flat_map enc_export es1 ++ post ->
  len pre + len (flat_map enc_export es1) <= end_ ->
  Forall passed_over es1 ->
  exports_loop (length es1 + n) buf (len pre) end_ =
  exports_loop n buf (len pre + len (flat_map enc_export es1)) end_.
Proof.
  induction es1 as [|e es IH]; intros pre post buf end_ n Hbuf Hend Hok.
  - cbn [flat_map length]. rewrite len_nil, Z.add_0_r. done.
  - apply Forall_cons in Hok as [[Hnone (Hn & Hidx & Hsum)] Hok].
    cbn [flat_map length Nat.add exports_loop] in *.
    rewrite len_app, enc_export_len in *.
    pose proof (leb128_length (len (exp_name e))). pose proof (leb128_length (exp_index e)).
    pose proof (len_nonneg (exp_name e)). pose proof (len_nonneg (flat_map enc_export es)).
    destruct (custom_name_read buf pre (exp_name e)
                (exp_kind e :: leb128 (exp_index e)) (flat_map enc_export es ++ post)
                (len pre) end_) as [Hpv Hsub].
    { subst buf. unfold enc_export. norm_app. }
    { done. } { done. } { rewrite enc_name_len. lia. }
    rewrite Hpv, Hsub.
    set (pos2 := len pre + len (leb128 (len (exp_name e))) + len (exp_name e)).
    destruct (Z.gtb_spec pos2 end_) as [?|_]; [lia|].
    destruct (Z.gtb_spec (pos2 + 1) end_) as [?|_]; [lia|].
    rewrite (byte_at_eq buf (pre ++ enc_name (exp_name e)) (exp_kind e)
               (leb128 (exp_index e) ++ flat_map enc_export es ++ post));
      [| subst buf; unfold enc_export; norm_app
       | subst pos2; rewrite len_app, enc_name_len; lia].
    fold (export_abi e). rewrite Hnone.
    rewrite (parseVarint_eq_acc buf (exp_index e)
               (pre ++ enc_name (exp_name e) ++ [exp_kind e])
               (flat_map enc_export es ++ post));
      [| subst buf; unfold enc_export; norm_app
       | subst pos2; rewrite !len_app, enc_name_len, len_cons, len_nil; lia
       | done | lia].
    destruct (Z.eqb_spec (wrap32 (len (exp_name e) + exp_index e)) UINT32_MAX); [done|].
    replace (pos2 + 1 + len (leb128 (exp_index e))) with (len (pre ++ enc_export e))
      by (subst pos2; rewrite len_app, enc_export_len; lia).
    rewrite (IH (pre ++ enc_export e) post buf end_ n);
      [| subst buf; norm_app | rewrite len_app, enc_export_len; lia | done].
    f_equal. rewrite len_app, enc_export_len. lia.
Qed.

(** The index of an export that is passed over is decoded on top of the
    length of its name; when the two add up to the all-ones value the loop
    gives up. *)
Lemma exports_loop_skip_fails e pre post buf end_ n :
  buf = pre ++ enc_export e ++ post ->
  len pre + len (enc_export e) <= end_ ->
  export_abi e = None ->
  len (exp_name e) < UINT32_MAX -> is_u32 (exp_index e) ->
  wrap32 (len (exp_name e) + exp_index e) = UINT32_MAX ->
  exports_loop (S n) buf (len pre) end_ = (false, Unknown).
Proof.
  intros Hbuf Hend Hnone Hn Hidx Hsum.
  cbn [exports_loop]. rewrite enc_export_len in Hend.
  pose proof (leb128_length (len (exp_name e))). pose proof (leb128_length (exp_index e)).
  pose proof (len_nonneg (exp_name e)).
  destruct (custom_name_read buf pre (exp_name e)
              (exp_kind e :: leb128 (exp_index e)) post (len pre) end_) as [Hpv Hsub].
  { subst buf. unfold enc_export. norm_app. }
  { done. } { done. } { rewrite enc_name_len. lia. }
  rewrite Hpv, Hsub.
  set (pos2 := len pre + len (leb128 (len (exp_name e))) + len (exp_name e)).
  destruct (Z.gtb_spec pos2 end_) as [?|_]; [lia|].
  destruct (Z.gtb_spec (pos2 + 1) end_) as [?|_]; [lia|].
  rewrite (byte_at_eq buf (pre ++ enc_name (exp_name e)) (exp_kind e)
             (leb128 (exp_index e) ++ post));
    [| subst buf; unfold enc_export; norm_app
     | subst pos2; rewrite len_app, enc_name_len; lia].
  fold (export_abi e). rewrite Hnone.
  rewrite (parseVarint_eq_acc buf (exp_index e)
             (pre ++ enc_name (exp_name e) ++ [exp_kind e]) post);
    [| subst buf; unfold enc_export; norm_app
     | subst pos2; rewrite !len_app, enc_name_len, len_cons, len_nil; lia
     | done | lia].
  by rewrite Hsum, Z.eqb_refl.
Qed.

(** On a module whose first section of type 7 starts with an encoded count,
    the scan comes to the export loop, whatever length that section
    declares, as long as it ends inside the buffer. *)
Lemma getAbiVersion_export_vector version pre L n body :
  let bytecode :=
    wasm_header version ++ enc_sections pre ++ 7 :: leb128 L ++ leb128 n ++ body in
  len version = 4 ->
  Forall wf_section pre ->
  Forall (fun s => sec_type s <> 7) pre ->
  0 <= L < UINT32_MAX -> L <= len (leb128 n) + len body ->
  0 <= n < UINT32_MAX -> n <= len body ->
  getAbiVersion bytecode =
    Some (exports_loop (Z.to_nat n) bytecode
            (len (wasm_header version ++ enc_sections pre ++ 7 :: leb128 L ++ leb128 n))
            (len bytecode)).
Proof.
  intros buf Hv Hwf Hty HL HLfit Hn Hnfit. unfold getAbiVersion.
  replace (checkWasmHeader buf) with true
    by (symmetry; apply checkWasmHeader_header).
  cbn [negb].
  pose proof (wasm_header_len version Hv) as Hh.
  pose proof (leb128_length L) as HlL. pose proof (leb128_length n) as Hln.
  pose proof (len_nonneg body). pose proof (len_nonneg (enc_sections pre)).
  assert (len buf = 8 + len (enc_sections pre) + 1 + len (leb128 L) + len (leb128 n)
                    + len body) as Hlen.
  { subst buf. norm_len. lia. }
  destruct (abi_loop_skip pre (wasm_header version) (7 :: leb128 L ++ leb128 n ++ body)
              (length buf) buf) as (fuel' & Hf' & Heq); try done.
  { fold (len buf). rewrite Hlen. norm_len. lia. }
  rewrite Hh in Heq. rewrite Heq. clear Heq.
  rewrite len_cons, !len_app in Hf'.
  destruct fuel' as [|fuel']; [lia|].
  rewrite abi_loop_S.
  destruct (Z.ltb_spec (8 + len (enc_sections pre)) (len buf)) as [_|?]; [|lia].
  rewrite (section_prologue_eq buf 7 L (wasm_header version ++ enc_sections pre)
             (leb128 n ++ body));
    [| subst buf; norm_app | norm_len; lia | done | lia].
  cbn [Z.eqb Pos.eqb].
  rewrite (parseVarint_eq buf n
             ((wasm_header version ++ enc_sections pre) ++ 7 :: leb128 L) body);
    [| subst buf; norm_app | norm_len; lia | lia | lia].
  destruct (Z.gtb_spec (8 + len (enc_sections pre) + 1 + len (leb128 L)
                        + len (leb128 n) + n) (len buf)) as [?|_]; [lia|].
  do 2 f_equal. norm_len. lia.
Qed.

(** Whatever the input, a [false] from the export loop or from the section
    loop comes with [Unknown]. *)
Lemma exports_loop_false n : forall buf pos end_ v,
  exports_loop n buf pos end_ = (false, v) -> v = Unknown.
Proof.
  induction n as [|n IH]; intros buf pos end_ v H; [done|].
  cbn [exports_loop] in H.
  destruct (parseVarint buf pos end_ 0) as [[p1 l]|]; [|congruence].
  destruct (p1 + l >? end_); [congruence|].
  destruct (p1 + l + 1 >? end_); [congruence|].
  destruct (if byte_at buf (p1 + l) =? 0 then abi_of_export_name (sub buf p1 l) else None);
    [done|].
  destruct (parseVarint buf (p1 + l + 1) end_ l) as [[p4 x]|]; [|congruence].
  by eapply IH.
Qed.

Lemma abi_loop_false fuel : forall buf pos end_ v,
  abi_loop fuel buf pos end_ = Some (false, v) -> v = Unknown.
Proof.
  induction fuel as [|fuel IH]; intros buf pos end_ v H.
  - cbn in H. by destruct (pos <? end_).
  - rewrite abi_loop_S in H. destruct (pos <? end_); [|done].
    destruct (section_prologue buf pos end_) as [[[t pos1] L]|]; [|congruence].
    destruct (t =? 7); [|by eapply IH].
    destruct (parseVarint buf pos1 end_ 0) as [[p n]|]; [|congruence].
    destruct (p + n >? end_); [congruence|].
    injection H as H. by eapply exports_loop_false.
Qed.

Lemma stripped_sections_clean ss :
  Forall (fun s => is_precompiled s = false) ss -> stripped_sections ss = ss.
Proof.
  induction 1 as [|s ss Hs _ IH]; [done|]. cbn [stripped_sections]. by rewrite Hs, IH.
Qed.

Lemma stripped_sections_split pre c post :
  Forall (fun s => is_precompiled s = false) pre -> is_precompiled c = true ->
  stripped_sections (pre ++ c :: post) = pre ++ List.filter is_plain post.
Proof.
  intros Hpre Hc. induction Hpre as [|s pre Hs _ IH]; cbn [app stripped_sections].
  - by rewrite Hc.
  - by rewrite Hs, IH.
Qed.

Lemma Forall_filter_plain (P : section -> Prop) ss :
  Forall P ss -> Forall P (List.filter is_plain ss).
Proof.
  induction 1 as [|s ss Hs _ IH]; [done|]. cbn [List.filter].
  destruct (is_plain s); [by apply Forall_cons_2 | done].
Qed.

Lemma Forall_stripped (P : section -> Prop) ss :
  Forall P ss -> Forall P (stripped_sections ss).
Proof.
  induction 1 as [|s ss Hs Hss IH]; [done|]. cbn [stripped_sections].
  destruct (is_precompiled s); [by apply Forall_filter_plain | by apply Forall_cons_2].
Qed.

Lemma filter_plain_clean ss :
  Forall (fun s => is_precompiled s = false) (List.filter is_plain ss).
Proof.
  induction ss as [|s ss IH]; [done|]. cbn [List.filter].
  destruct (is_plain s) eqn:Hs; [|done].
  apply Forall_cons_2; [by apply is_precompiled_plain | done].
Qed.

Lemma stripped_sections_are_clean ss :
  Forall (fun s => is_precompiled s = false) (stripped_sections ss).
Proof.
  induction ss as [|s ss IH]; [done|]. cbn [stripped_sections].
  destruct (is_precompiled s) eqn:Hs; [apply filter_plain_clean | by apply Forall_cons_2].
Qed.

(** The output of a strip, as the encoding of the sections it keeps. *)
Lemma getStrippedSource_sections version ss :
  len version = 4 ->
  Forall wf_section ss ->
  getStrippedSource (wasm_header version ++ enc_sections ss) [] =
    Some (true, wasm_header version ++ enc_sections (stripped_sections ss)).
Proof.
  intros Hv Hwf.
  destruct (first_precompiled ss) as [Hc | (pre & c & post & -> & Hpre & Hc)].
  - rewrite stripped_sections_clean by done. by apply getStrippedSource_clean.
  - rewrite stripped_sections_split by done.
    rewrite getStrippedSource_strip by done. by rewrite enc_sections_app.
Qed.

(** A non-custom section survives the strip, with a selection of the
    sections before it in front. *)
Lemma stripped_sections_keep s1 : forall e s2,
  is_plain e = true ->
  exists s1' s2',
    stripped_sections (s1 ++ e :: s2) = s1' ++ e :: s2' /\
    forall P : section -> Prop, Forall P s1 -> Forall P s1'.
Proof.
  induction s1 as [|s s1 IH]; intros e s2 He.
  - exists [], (stripped_sections s2). split; [|done].
    cbn [app stripped_sections]. by rewrite (is_precompiled_plain e He).
  - cbn [app stripped_sections]. destruct (is_precompiled s) eqn:Hs.
    + exists (List.filter is_plain s1), (List.filter is_plain s2). split.
      * rewrite List.filter_app. cbn [List.filter]. by rewrite He.
      * intros P HP. apply Forall_cons in HP as [_ HP]. by apply Forall_filter_plain.
    + destruct (IH e s2 He) as (s1' & s2' & Heq & HP).
      exists (s :: s1'), s2'. split; [by rewrite Heq|].
      intros P HPs. apply Forall_cons in HPs as [? ?].
      apply Forall_cons_2; [done | by apply HP].
Qed.

(** A section that counts as precompiled does not carry a name that does
    not. *)
Lemma custom_named_clean name s :
  sv_find name (bytes_of_string "precompiled_") <> None ->
  is_precompiled s = false -> custom_named name s = false.
Proof.
  intros Hname Hs. destruct s as [n d|]; [|done]. cbn [custom_named is_precompiled] in *.
  apply bytes_eqb_neq. intros ->.
  destruct (sv_find name (bytes_of_string "precompiled_")); done.
Qed.

Lemma len_sub_le buf pos n : 0 <= n -> len (sub buf pos n) <= n.
Proof.
  intros Hn. unfold sub, len. rewrite length_take. lia.
Qed.

(** The output never grows past the cursor. *)
Lemma strip_loop_len fuel : forall buf pos end_ ret b out,
  0 <= pos -> end_ <= len buf ->
  len ret <= pos -> len ret <= len buf ->
  strip_loop fuel buf pos end_ ret = Some (b, out) -> len out <= len buf.
Proof.
  induction fuel as [|fuel IH]; intros buf pos end_ ret b out Hpos Hend Hr Hrb H.
  - cbn in H. destruct (pos <? end_); [done|]. injection H as <- <-.
    by destruct (is_nil ret).
  - rewrite strip_loop_S in H. destruct (Z.ltb_spec pos end_) as [Hlt|?].
    2:{ injection H as <- <-. by destruct (is_nil ret). }
    destruct (section_prologue buf pos end_) as [[[t pos1] L]|] eqn:Hp;
      [|by injection H as <- <-].
    apply section_prologue_bounds in Hp.
    destruct (t =? 0).
    + destruct (parseVarint buf pos1 end_ 0) as [[p n]|]; [|by injection H as <- <-].
      destruct (p + n >? end_); [by injection H as <- <-|].
      apply IH in H; [done | lia | done | |].
      * destruct (sv_find _ _); [|lia]. destruct ret; cbn [is_nil]; [|lia].
        rewrite len_app, len_nil. pose proof (len_sub_le buf 0 pos Hpos). lia.
      * destruct (sv_find _ _); [|lia]. destruct ret; cbn [is_nil]; [|lia].
        rewrite len_app, len_nil. pose proof (len_sub_le buf 0 pos Hpos). lia.
    + apply IH in H; [done | lia | done | |].
      * destruct (negb (is_nil ret)); [|lia]. rewrite len_app.
        pose proof (len_sub_le buf pos (pos1 + L - pos)). lia.
      * destruct (negb (is_nil ret)); [|lia]. rewrite len_app.
        pose proof (len_sub_le buf pos (pos1 + L - pos)). lia.
Qed.

(** All bytes of a standard encoding but the last carry the continuation
    bit. *)
Lemma leb128_n_prefix_cont n : forall v a b,
  leb128_n n v = a ++ b -> b <> [] ->
  Forall (fun x => Z.testbit x 7 = true) a.
Proof.
  induction n as [|n IH]; intros v a b H Hb.
  - cbn in H. symmetry in H. apply app_eq_nil in H as [-> _]. done.
  - rewrite leb128_n_S in H. destruct (v <? 128).
    + destruct a as [|x a]; [done|]. exfalso.
      injection H as _ H. symmetry in H. apply app_eq_nil in H as [_ ->]. done.
    + destruct a as [|x a]; [done|]. cbn [app] in H. injection H as <- H.
      apply Forall_cons_2; [|by eapply IH].
      apply testbit7_high, Z.mod_pos_bound. lia.
Qed.

Lemma byte_at_middle pre l post i :
  len pre <= i < len pre + len l ->
  byte_at (pre ++ l ++ post) i = nth (Z.to_nat (i - len pre)) l 0.
Proof.
  intros Hi. unfold byte_at, len in *.
  rewrite app_nth2 by lia. rewrite app_nth1 by lia. f_equal. lia.
Qed.

(** The prologue on a section cut short: the buffer ends inside it. *)
Lemma section_prologue_truncated buf pre s t t' :
  buf = pre ++ t -> enc_section s = t ++ t' -> t <> [] -> t' <> [] ->
  len (sec_payload s) < UINT32_MAX ->
  section_prologue buf (len pre) (len buf) = None.
Proof.
  intros Hbuf Henc Ht Ht' HL. unfold enc_section in Henc.
  destruct t as [|ty t1]; [done|]. cbn [app] in Henc. injection Henc as <- Henc.
  pose proof (len_nonneg (sec_payload s)) as Hp0.
  pose proof (leb128_length (len (sec_payload s))) as Hll.
  pose proof (len_nonneg t1) as Ht0.
  assert (len buf = len pre + 1 + len t1) as Hlen by (subst buf; norm_len; lia).
  unfold section_prologue.
  destruct (Z.gtb_spec (len pre + 1) (len buf)) as [?|_]; [lia|].
  assert (forall k, t1 = leb128 (len (sec_payload s)) ++ k ->
                    sec_payload s = k ++ t' ->
          match parseVarint buf (len pre + 1) (len buf) 0 with
          | Some (pos1, section_len) =>
              if pos1 + section_len >? len buf then None
              else Some (byte_at buf (len pre), pos1, section_len)
          | None => None
          end = None) as Hfull.
  { intros k Hk Hpay.
    rewrite (parseVarint_eq buf (len (sec_payload s)) (pre ++ [sec_type s]) k);
      [| subst buf t1; norm_app | norm_len; lia | lia
       | rewrite Hlen, Hk, len_app; pose proof (len_nonneg k); lia].
    assert (0 < len t') by (destruct t'; [done | rewrite len_cons; pose proof (len_nonneg t'); lia]).
    apply (f_equal len) in Hpay, Hk. rewrite len_app in Hpay, Hk.
    destruct (Z.gtb_spec (len pre + 1 + len (leb128 (len (sec_payload s)))
                          + len (sec_payload s)) (len buf)) as [?|?]; [done | lia]. }
  apply app_eq_inv in Henc as [(k & Hleb & Hk) | (k & Hk & Hpay)].
  - destruct k as [|x k].
    + rewrite app_nil_r in Hleb. apply (Hfull []); [by rewrite app_nil_r, Hleb | done].
    + rewrite parseVarint_unterminated; [done|].
      intros i Hi Hz. apply Z.eqb_eq in Hz. rewrite land_128 in Hz.
      assert (Forall (fun b => Z.testbit b 7 = true) t1) as Hc.
      { apply (leb128_n_prefix_cont 5 (len (sec_payload s)) t1 (x :: k)); done. }
      assert (buf = (pre ++ [sec_type s]) ++ t1 ++ []) as Hb'
        by (subst buf; rewrite app_nil_r; norm_app).
      rewrite Hb', byte_at_middle in Hz by (norm_len; lia).
      rewrite List.Forall_nth in Hc.
      rewrite Hc in Hz; [done|]. norm_len. unfold len in *. lia.
  - by apply (Hfull k).
Qed.

(** Two buffers that differ only in their first [len h1 = len h2] bytes are
    read alike from there on. *)
Lemma byte_at_tail h1 h2 rest pos :
  len h1 = len h2 -> len h1 <= pos ->
  byte_at (h1 ++ rest) pos = byte_at (h2 ++ rest) pos.
Proof.
  intros Hh Hpos. unfold byte_at, len in *.
  rewrite !app_nth2 by lia. f_equal. lia.
Qed.

Lemma sub_tail h1 h2 rest pos n :
  len h1 = len h2 -> len h1 <= pos ->
  sub (h1 ++ rest) pos n = sub (h2 ++ rest) pos n.
Proof.
  intros Hh Hpos. unfold sub, len in *.
  rewrite !drop_app_ge by lia. do 2 f_equal. lia.
Qed.

Lemma parseVarint_from_tail h1 h2 rest room : forall pos s r,
  len h1 = len h2 -> len h1 <= pos ->
  parseVarint_from room (h1 ++ rest) pos s r = parseVarint_from room (h2 ++ rest) pos s r.
Proof.
  induction room as [|room IH]; intros pos s r Hh Hpos; [done|].
  cbn [parseVarint_from]. rewrite (byte_at_tail h1 h2) by done.
  destruct (negb _); [apply IH; [done | lia] | done].
Qed.

Lemma parseVarint_tail h1 h2 rest pos end_ r :
  len h1 = len h2 -> len h1 <= pos ->
  parseVarint (h1 ++ rest) pos end_ r = parseVarint (h2 ++ rest) pos end_ r.
Proof. intros. by apply parseVarint_from_tail. Qed.

Lemma section_prologue_tail h1 h2 rest pos end_ :
  len h1 = len h2 -> len h1 <= pos ->
  section_prologue (h1 ++ rest) pos end_ = section_prologue (h2 ++ rest) pos end_.
Proof.
  intros Hh Hpos. unfold section_prologue.
  rewrite (byte_at_tail h1 h2), (parseVarint_tail h1 h2) by (done || lia). done.
Qed.

Lemma exports_loop_tail h1 h2 rest n : forall pos end_,
  len h1 = len h2 -> len h1 <= pos ->
  exports_loop n (h1 ++ rest) pos end_ = exports_loop n (h2 ++ rest) pos end_.
Proof.
  induction n as [|n IH]; intros pos end_ Hh Hpos; [done|].
  cbn [exports_loop]. rewrite (parseVarint_tail h1 h2) by done.
  destruct (parseVarint (h2 ++ rest) pos end_ 0) as [[p1 l]|] eqn:H1; [|done].
  apply parseVarint_bounds in H1.
  destruct (p1 + l >? end_); [done|]. destruct (p1 + l + 1 >? end_); [done|].
  rewrite (byte_at_tail h1 h2), (sub_tail h1 h2), (parseVarint_tail h1 h2)
    by (done || lia).
  destruct (if _ =? 0 then _ else _); [done|].
  destruct (parseVarint (h2 ++ rest) (p1 + l + 1) end_ l) as [[p4 x]|] eqn:H4; [|done].
  apply parseVarint_bounds in H4. apply IH; [done | lia].
Qed.

Lemma abi_loop_tail h1 h2 rest fuel : forall pos end_,
  len h1 = len h2 -> len h1 <= pos ->
  abi_loop fuel (h1 ++ rest) pos end_ = abi_loop fuel (h2 ++ rest) pos end_.
Proof.
  induction fuel as [|fuel IH]; intros pos end_ Hh Hpos; [done|].
  rewrite !abi_loop_S. destruct (pos <? end_); [|done].
  rewrite (section_prologue_tail h1 h2) by done.
  destruct (section_prologue (h2 ++ rest) pos end_) as [[[t pos1] L]|] eqn:Hp; [|done].
  apply section_prologue_bounds in Hp.
  destruct (t =? 7); [|apply IH; [done | lia]].
  rewrite (parseVarint_tail h1 h2) by (done || lia).
  destruct (parseVarint (h2 ++ rest) pos1 end_ 0) as [[p n]|] eqn:Hpv; [|done].
  apply parseVarint_bounds in Hpv.
  destruct (p + n >? end_); [done|]. f_equal. apply exports_loop_tail; [done | lia].
Qed.

Lemma custom_loop_tail h1 h2 rest name fuel : forall pos end_ ret,
  len h1 = len h2 -> len h1 <= pos ->
  custom_loop fuel (h1 ++ rest) name pos end_ ret
  = custom_loop fuel (h2 ++ rest) name pos end_ ret.
Proof.
  induction fuel as [|fuel IH]; intros pos end_ ret Hh Hpos; [done|].
  rewrite !custom_loop_S. destruct (pos <? end_); [|done].
  rewrite (section_prologue_tail h1 h2) by done.
  destruct (section_prologue (h2 ++ rest) pos end_) as [[[t pos1] L]|] eqn:Hp; [|done].
  apply section_prologue_bounds in Hp.
  destruct (t =? 0); [|apply IH; [done | lia]].
  rewrite (parseVarint_tail h1 h2) by (done || lia).
  destruct (parseVarint (h2 ++ rest) pos1 end_ 0) as [[p n]|] eqn:Hpv; [|done].
  apply parseVarint_bounds in Hpv.
  destruct (p + n >? end_); [done|].
  rewrite (sub_tail h1 h2) by (done || lia).
  destruct (_ && _); [done|]. apply IH; [done | lia].
Qed.

Lemma namemap_loop_tail h1 h2 rest n : forall pos end_ (ret : gmap Z (list Z)),
  len h1 = len h2 -> len h1 <= pos ->
  namemap_loop n (h1 ++ rest) pos end_ ret = namemap_loop n (h2 ++ rest) pos end_ ret.
Proof.
  induction n as [|n IH]; intros pos end_ ret Hh Hpos; [done|].
  cbn [namemap_loop]. rewrite (parseVarint_tail h1 h2) by done.
  destruct (parseVarint (h2 ++ rest) pos end_ 0) as [[p1 i]|] eqn:H1; [|done].
  apply parseVarint_bounds in H1.
  rewrite (parseVarint_tail h1 h2) by (done || lia).
  destruct (parseVarint (h2 ++ rest) p1 end_ 0) as [[p2 l]|] eqn:H2; [|done].
  apply parseVarint_bounds in H2.
  destruct (p2 + l >? end_); [done|].
  rewrite (sub_tail h1 h2) by (done || lia). apply IH; [done | lia].
Qed.

Lemma name_loop_tail h1 h2 rest fuel : forall pos end_ (ret : gmap Z (list Z)),
  len h1 = len h2 -> len h1 <= pos ->
  name_loop fuel (h1 ++ rest) pos end_ ret = name_loop fuel (h2 ++ rest) pos end_ ret.
Proof.
  induction fuel as [|fuel IH]; intros pos end_ ret Hh Hpos; [done|].
  rewrite !name_loop_S. destruct (pos <? end_); [|done].
  rewrite (section_prologue_tail h1 h2) by done.
  destruct (section_prologue (h2 ++ rest) pos end_) as [[[t pos1] L]|] eqn:Hp; [|done].
  apply section_prologue_bounds in Hp.
  destruct (negb (t =? 1)); [apply IH; [done | lia]|].
  rewrite (parseVarint_tail h1 h2) by (done || lia).
  destruct (parseVarint (h2 ++ rest) pos1 end_ 0) as [[p n]|] eqn:Hpv; [|done].
  apply parseVarint_bounds in Hpv.
  destruct (p + n >? end_); [done|].
  rewrite (namemap_loop_tail h1 h2) by (done || lia).
  destruct (namemap_loop (Z.to_nat n) (h2 ++ rest) p end_ ret) as [[p3|] ret'] eqn:Hn;
    [|done].
  apply namemap_loop_bounds in Hn.
  destruct (negb (pos1 + L =? p3)); [done|]. apply IH; [done | lia].
Qed.

(** * Exact outputs on failure, and padded varints *)








(** * The claims of the specification *)

(** C1 (the code departs from the claim).  The claim: the header check
    holds exactly for buffers of at least 8 bytes that start with the magic
    number, and the four scanning operations fail on every other buffer.
    The check as written accepts every buffer shorter than 8 bytes.  On the
    3-byte buffer [00 61 73] the check holds and all four operations return
    success: [Unknown], an untouched range, an untouched mapping and a copy
    of the 3 bytes. *)
Theorem C1_short_buffer_is_accepted :
  checkWasmHeader short_buffer = true /\
  getAbiVersion short_buffer = Some (true, Unknown) /\
  getCustomSection short_buffer name_str sv_default = Some (true, sv_default) /\
  getFunctionNameIndex short_buffer ∅ = Some (true, ∅) /\
  getStrippedSource short_buffer [] = Some (true, short_buffer).
Proof.
  split; [reflexivity|].
  destruct (short_buffer_accepted short_buffer name_str sv_default ∅ [])
    as (Ha & Hc & Hf & Hs); [reflexivity|].
  by rewrite Ha, Hc, Hf, Hs.
Qed.




(** C3, counterexample.  The name section of [dup_module] names function 0
    twice, "a" first and "b" second.  The operation succeeds and the mapping
    gives "a" for index 0, the name of the earlier pair, where the claim
    asks for "b". *)
Lemma C3_earlier_pair_is_kept :
  dup_module =
    [0; 97; 115; 109; 1; 0; 0; 0; 0; 14; 4; 110; 97; 109; 101; 1; 7; 2; 0;
     1; 97; 0; 1; 98] /\
  getFunctionNameIndex dup_module ∅ = Some (true, {[0 := [97]]}) /\
  last_name 0 dup_pairs = Some [98].
Proof. repeat split; reflexivity. Qed.

(** C3 (amended).  On a well-formed module whose first custom section
    named "name" holds well-formed subsections, [getFunctionNameIndex],
    started on an empty mapping, succeeds, and the mapping gives for every
    function index the name of the first pair with that index, in the order
    of the function-name subsections: a later pair with an index already
    seen changes nothing (first write wins). *)
Theorem C3_first_write_wins version pre subs post :
  let bytecode :=
    wasm_header version ++ enc_sections pre
    ++ enc_section (Custom name_str (enc_subsections subs)) ++ post in
  len version = 4 ->
  len bytecode < 2 ^ 64 ->
  Forall wf_section pre ->
  Forall (fun s => custom_named name_str s = false) pre ->
  wf_section (Custom name_str (enc_subsections subs)) ->
  Forall wf_subsection subs ->
  exists ret,
    getFunctionNameIndex bytecode ∅ = Some (true, ret) /\
    forall k, ret !! k = first_name k (flat_map sub_pairs subs).
Proof.
  intros bytecode Hv H64 Hwf Hnm Hs Hsubs.
  exists (insert_pairs (flat_map sub_pairs subs) ∅). split.
  - by apply getFunctionNameIndex_names.
  - intros k. by rewrite insert_pairs_lookup, lookup_empty.
Qed.

Lemma C3_first_write_wins_witness :
  exists ret,
    getFunctionNameIndex
      (wasm_header example_version ++ enc_sections [Plain 1 [0]]
       ++ enc_section (Custom name_str (enc_subsections [FuncNames dup_pairs])) ++ [])
      ∅ = Some (true, ret) /\
    forall k, ret !! k = first_name k (flat_map sub_pairs [FuncNames dup_pairs]).
Proof.
  apply (C3_first_write_wins example_version [Plain 1 [0]] [FuncNames dup_pairs] []).
  - reflexivity.
  - reflexivity.
  - solve_wf.
  - solve_wf.
  - solve_wf.
  - solve_wf.
Defined.

(** C4, counterexample.  The standard encoding of [0xFFFFFFFF] is
    [FF FF FF FF 0F]; the decoder returns [false] on it, because the decoded
    value is the one it reserves for failure. *)
Lemma C4_all_ones_is_rejected :
  is_u32 UINT32_MAX /\
  leb128 UINT32_MAX = [255; 255; 255; 255; 15] /\
  parseVarint (leb128 UINT32_MAX) 0 (len (leb128 UINT32_MAX)) 0 = None.
Proof. split; [|split]; [|reflexivity|reflexivity]. unfold is_u32, UINT32_MAX. lia. Qed.

(** C4 (amended).  For every [u32] value [v] other than [0xFFFFFFFF],
    decoding the standard LEB128 encoding of [v], from an accumulator at
    zero and anywhere in a buffer, succeeds, yields [v] and leaves the
    cursor just past the encoding; and when every byte from the cursor to
    the end of the buffer has its continuation bit set, decoding fails. *)
Theorem C4_varint_round_trip :
  (forall v pre post end_,
     is_u32 v -> v <> UINT32_MAX -> len pre + len (leb128 v) <= end_ ->
     parseVarint (pre ++ leb128 v ++ post) (len pre) end_ 0
     = Some (len pre + len (leb128 v), v)) /\
  (forall buf pos end_ ret,
     (forall i, pos <= i < end_ -> Z.testbit (byte_at buf i) 7 = true) ->
     parseVarint buf pos end_ ret = None).
Proof.
  split.
  - intros v pre post end_ [Hv0 Hv] Hne Hend.
    apply parseVarint_leb128_0; [|done].
    unfold UINT32_MAX in *. change (2 ^ 32) with 4294967296 in Hv. lia.
  - intros buf pos end_ ret Hc. apply parseVarint_unterminated.
    intros i Hi. apply Hc in Hi. intros H0.
    apply Z.eqb_eq in H0. rewrite land_128, Hi in H0. discriminate.
Qed.

Lemma C4_varint_round_trip_witness :
  parseVarint ([7] ++ leb128 624485 ++ [9]) (len [7]) 4 0
    = Some (len [7] + len (leb128 624485), 624485) /\
  parseVarint [128; 255] 0 2 0 = None.
Proof.
  split.
  - apply (proj1 C4_varint_round_trip 624485 [7] [9] 4).
    + unfold is_u32. lia.
    + unfold UINT32_MAX. lia.
    + vm_compute. discriminate.
  - apply (proj2 C4_varint_round_trip [128; 255] 0 2 0).
    intros i Hi. assert (i = 0 \/ i = 1) as [-> | ->] by lia; reflexivity.
Defined.




(** C6, counterexample.  The export section of [two_abi_module] holds two
    function exports, [proxy_abi_version_0_1_0] and then
    [proxy_abi_version_0_2_1].  The module is well formed and contains the
    export the claim speaks of, yet the version returned is 0.1.0: the loop
    stops at the first export that carries a known name. *)
Lemma C6_earlier_abi_export_wins :
  two_abi_module =
    [0; 97; 115; 109; 1; 0; 0; 0; 7; 53; 2; 23; 112; 114; 111; 120; 121;
     95; 97; 98; 105; 95; 118; 101; 114; 115; 105; 111; 110; 95; 48; 95;
     49; 95; 48; 0; 0; 23; 112; 114; 111; 120; 121; 95; 97; 98; 105; 95;
     118; 101; 114; 115; 105; 111; 110; 95; 48; 95; 50; 95; 49; 0; 1] /\
  In (mk_export (bytes_of_string "proxy_abi_version_0_2_1") 0 1) two_abi_exports /\
  getAbiVersion two_abi_module = Some (true, ProxyWasm_0_1_0).
Proof. split; [reflexivity|]. split; [|reflexivity]. right. by left. Qed.

(** C6 (amended).  On a well-formed module, [getAbiVersion] answers from
    the first export section.  It returns success with version 0.2.1 when
    that section holds a function export named [proxy_abi_version_0_2_1] and
    every export before it is passed over: it is not a function export under
    one of the three ABI names, and the loop can skip its index.  Whatever
    sections precede the export section, and whatever follows the export,
    makes no difference.  With no export section, or with an export section
    all of whose exports are passed over, it returns success with
    [Unknown]. *)
Theorem C6_abi_version_detection :
  (forall version pre es1 e es2 post,
     len version = 4 ->
     Forall wf_section pre -> Forall (fun s => sec_type s <> 7) pre ->
     wf_section (export_section (es1 ++ e :: es2)) ->
     Forall passed_over es1 ->
     exp_kind e = 0 -> exp_name e = bytes_of_string "proxy_abi_version_0_2_1" ->
     getAbiVersion
       (wasm_header version ++ enc_sections pre
        ++ enc_section (export_section (es1 ++ e :: es2)) ++ post)
     = Some (true, ProxyWasm_0_2_1)) /\
  (forall version ss,
     len version = 4 ->
     Forall wf_section ss -> Forall (fun s => sec_type s <> 7) ss ->
     getAbiVersion (wasm_header version ++ enc_sections ss) = Some (true, Unknown)) /\
  (forall version pre es post,
     len version = 4 ->
     Forall wf_section pre -> Forall (fun s => sec_type s <> 7) pre ->
     wf_section (export_section es) ->
     Forall passed_over es ->
     getAbiVersion
       (wasm_header version ++ enc_sections pre
        ++ enc_section (export_section es) ++ post)
     = Some (true, Unknown)).
Proof.
  split; [|split].
  - intros version pre es1 e es2 post Hv Hwf Hty Hs H1 Hk Hn.
    assert (export_abi e = Some ProxyWasm_0_2_1) as He.
    { unfold export_abi. by rewrite Hk, Hn. }
    rewrite getAbiVersion_exports; try done.
    + by rewrite (first_abi_hit es1 e es2 ProxyWasm_0_2_1).
    + by apply (exports_ok_hit es1 e es2 ProxyWasm_0_2_1).
  - intros. by apply getAbiVersion_no_exports.
  - intros version pre es post Hv Hwf Hty Hs Hes.
    rewrite getAbiVersion_exports; try done.
    + by rewrite first_abi_none.
    + by apply exports_ok_none.
Qed.

Lemma C6_abi_version_detection_witness :
  getAbiVersion
    (wasm_header example_version
     ++ enc_sections [Plain 1 [0]; Custom name_str [5]]
     ++ enc_section (export_section
          ([mk_export (bytes_of_string "memory") 2 0;
            mk_export (bytes_of_string "proxy_abi_version_0_2_1") 1 3]
           ++ mk_export (bytes_of_string "proxy_abi_version_0_2_1") 0 4
           :: [mk_export (bytes_of_string "proxy_abi_version_0_1_0") 0 5]))
     ++ [10; 1; 0])
  = Some (true, ProxyWasm_0_2_1) /\
  getAbiVersion (wasm_header example_version ++ enc_sections [Plain 1 [0]; Plain 10 [0]])
  = Some (true, Unknown) /\
  getAbiVersion
    (wasm_header example_version ++ enc_sections [Plain 1 [0]]
     ++ enc_section (export_section [mk_export (bytes_of_string "memory") 2 0;
                                     mk_export (bytes_of_string "_start") 0 1])
     ++ [10; 1; 0])
  = Some (true, Unknown).
Proof.
  split; [|split].
  - apply (proj1 C6_abi_version_detection); solve_wf.
  - apply (proj1 (proj2 C6_abi_version_detection)); solve_wf.
  - apply (proj2 (proj2 C6_abi_version_detection)); solve_wf.
Defined.

(** C7.  On a module made of a valid header, a non-custom section, a custom
    section named [precompiled_cranelift] and another non-custom section,
    [getStrippedSource], started on an empty buffer, returns success and
    exactly the header followed by the two non-custom sections.  (Sections 1
    and 10 are the type and code sections.) *)
Theorem C7_strip_removes_precompiled version ty1 p1 data ty2 p2 :
  let type_section := Plain ty1 p1 in
  let precompiled := Custom (bytes_of_string "precompiled_cranelift") data in
  let code_section := Plain ty2 p2 in
  len version = 4 ->
  wf_section type_section -> wf_section precompiled -> wf_section code_section ->
  getStrippedSource
    (wasm_header version ++ enc_section type_section ++ enc_section precompiled
     ++ enc_section code_section) []
  = Some (true, wasm_header version ++ enc_section type_section
                ++ enc_section code_section).
Proof.
  intros type_section precompiled code_section Hv H1 Hp H2.
  pose proof (getStrippedSource_strip version [type_section] precompiled [code_section])
    as H.
  unfold enc_sections in H.
  cbn [app flat_map List.filter is_plain is_custom code_section negb] in H.
  rewrite !app_nil_r in H. apply H; try done.
  - repeat first [apply Forall_nil_2 | apply Forall_cons_2]; done.
  - repeat first [apply Forall_nil_2 | apply Forall_cons_2]; done.
Qed.

Lemma C7_strip_removes_precompiled_witness :
  getStrippedSource
    (wasm_header example_version ++ enc_section (Plain 1 [1; 96; 0; 0])
     ++ enc_section (Custom (bytes_of_string "precompiled_cranelift") [222; 173; 190; 239])
     ++ enc_section (Plain 10 [1; 2; 0; 11])) []
  = Some (true, wasm_header example_version ++ enc_section (Plain 1 [1; 96; 0; 0])
                ++ enc_section (Plain 10 [1; 2; 0; 11])).
Proof.
  apply (C7_strip_removes_precompiled example_version 1 [1; 96; 0; 0]
           [222; 173; 190; 239] 10 [1; 2; 0; 11]); solve_wf.
Defined.

(** C8.  On a well-formed module none of whose custom sections has a name
    containing [precompiled_], [getStrippedSource], started on an empty
    buffer, returns success and the input, byte for byte; run again on that
    output it returns the same bytes. *)
Theorem C8_strip_without_precompiled_is_copy version ss :
  let bytecode := wasm_header version ++ enc_sections ss in
  len version = 4 ->
  Forall wf_section ss ->
  Forall (fun s => is_precompiled s = false) ss ->
  getStrippedSource bytecode [] = Some (true, bytecode) /\
  (forall out, getStrippedSource bytecode [] = Some (true, out) ->
               getStrippedSource out [] = Some (true, out)).
Proof.
  intros bytecode Hv Hwf Hc.
  assert (getStrippedSource bytecode [] = Some (true, bytecode)) as H
    by by apply getStrippedSource_clean.
  split; [done|]. intros out Hout. rewrite H in Hout. by injection Hout as <-.
Qed.

Lemma C8_strip_without_precompiled_is_copy_witness :
  let bytecode :=
    wasm_header example_version
    ++ enc_sections [Plain 1 [1; 96; 0; 0]; Custom name_str [0; 1; 0]; Plain 10 [1; 2; 0; 11]] in
  getStrippedSource bytecode [] = Some (true, bytecode) /\
  (forall out, getStrippedSource bytecode [] = Some (true, out) ->
               getStrippedSource out [] = Some (true, out)).
Proof.
  apply (C8_strip_without_precompiled_is_copy example_version
           [Plain 1 [1; 96; 0; 0]; Custom name_str [0; 1; 0]; Plain 10 [1; 2; 0; 11]]);
    solve_wf.
Defined.

(** C9.  When the first custom section named "name" consists of a
    function-name subsection with the pairs (0, "main") and (2, "helper"),
    [getFunctionNameIndex], started on an empty mapping, returns success and
    the mapping {0: "main", 2: "helper"}.  And when a function-name
    subsection, reached through well-formed subsections, declares a size
    other than the number of bytes its pair vector takes, the operation
    returns [false]. *)
Theorem C9_function_names_and_size_check :
  (forall version pre post,
     let bytecode :=
       wasm_header version ++ enc_sections pre
       ++ enc_section (Custom name_str (enc_subsections [FuncNames main_helper]))
       ++ post in
     len version = 4 ->
     len bytecode < 2 ^ 64 ->
     Forall wf_section pre ->
     Forall (fun s => custom_named name_str s = false) pre ->
     getFunctionNameIndex bytecode ∅
     = Some (true, {[0 := bytes_of_string "main"; 2 := bytes_of_string "helper"]})) /\
  (forall version pre subs declared pairs tail post ret,
     let data :=
       enc_subsections subs ++ (1 :: leb128 declared ++ namemap_body pairs) ++ tail in
     let bytecode :=
       wasm_header version ++ enc_sections pre
       ++ enc_section (Custom name_str data) ++ post in
     len version = 4 ->
     len bytecode < 2 ^ 64 ->
     Forall wf_section pre ->
     Forall (fun s => custom_named name_str s = false) pre ->
     wf_section (Custom name_str data) ->
     Forall wf_subsection subs ->
     is_u32 declared -> Forall wf_pair pairs -> len (namemap_body pairs) < UINT32_MAX ->
     declared <> len (namemap_body pairs) ->
     exists ret', getFunctionNameIndex bytecode ret = Some (false, ret')).
Proof.
  split.
  - intros version pre post bytecode Hv H64 Hwf Hnm.
    subst bytecode. rewrite getFunctionNameIndex_names; try done.
    solve_wf.
  - intros version pre subs declared pairs tail post ret data bytecode.
    apply getFunctionNameIndex_bad_size.
Qed.

Lemma C9_function_names_and_size_check_witness :
  getFunctionNameIndex
    (wasm_header example_version ++ enc_sections [Plain 1 [0]]
     ++ enc_section (Custom name_str (enc_subsections [FuncNames main_helper]))
     ++ [10; 1; 0]) ∅
  = Some (true, {[0 := bytes_of_string "main"; 2 := bytes_of_string "helper"]}) /\
  exists ret',
    getFunctionNameIndex
      (wasm_header example_version ++ enc_sections [Plain 1 [0]]
       ++ enc_section
            (Custom name_str
               (enc_subsections [OtherSub 0 [3; 109; 111; 100]]
                ++ (1 :: leb128 16 ++ namemap_body main_helper) ++ [0; 0]))
       ++ [10; 1; 0]) ∅
    = Some (false, ret').
Proof.
  split.
  - apply (proj1 C9_function_names_and_size_check example_version [Plain 1 [0]] [10; 1; 0]);
      solve_wf.
  - apply (proj2 C9_function_names_and_size_check example_version [Plain 1 [0]]
             [OtherSub 0 [3; 109; 111; 100]] 16 main_helper [0; 0] [10; 1; 0] ∅);
      solve_wf.
Defined.

(** C10, counterexample.  [absent_module] has no custom section named
    "name"; in [empty_name_module] the section is there with nothing after
    the name.  Called with a default range, [getCustomSection] returns [true]
    on both, with a null range on the first and a range that starts at
    offset 18 on the second: two different values.  Called with a range of
    three bytes, it leaves that range on the first and returns an empty range
    on the second, so that size and bytes differ as well. *)
Lemma C10_results_can_be_told_apart :
  absent_module = [0; 97; 115; 109; 1; 0; 0; 0; 1; 1; 0] /\
  empty_name_module =
    [0; 97; 115; 109; 1; 0; 0; 0; 1; 1; 0; 0; 5; 4; 110; 97; 109; 101; 10; 1; 0] /\
  getCustomSection absent_module name_str sv_default = Some (true, mk_sv None 0) /\
  getCustomSection empty_name_module name_str sv_default = Some (true, mk_sv (Some 18) 0) /\
  mk_sv None 0 <> mk_sv (Some 18) 0 /\
  getCustomSection absent_module name_str (mk_sv (Some 8) 3)
    = Some (true, mk_sv (Some 8) 3) /\
  getCustomSection empty_name_module name_str (mk_sv (Some 8) 3)
    = Some (true, mk_sv (Some 18) 0) /\
  sv_bytes absent_module (mk_sv (Some 8) 3) = [1; 1; 0] /\
  sv_bytes empty_name_module (mk_sv (Some 18) 0) = [].
Proof. repeat split; try reflexivity. discriminate. Qed.

(** C10 (amended).  Take a well-formed module with no custom section of the
    requested name, and one whose first custom section of that name has
    nothing after the name.  [getCustomSection] returns success on both, with
    different results: on the first the output range is left as the caller
    passed it, on the second it is overwritten with an empty range that
    starts right after the name.  Only a caller that passed an empty range
    and looks at the size or the bytes of the result finds the same in both
    cases.  When the name is "name", [getFunctionNameIndex] returns success
    and leaves the mapping as it was in both cases. *)
Theorem C10_absent_and_empty_results version ss pre post name sv
    (m : gmap Z (list Z)) :
  let absent := wasm_header version ++ enc_sections ss in
  let present :=
    wasm_header version ++ enc_sections pre ++ enc_section (Custom name []) ++ post in
  let found := mk_sv (Some (custom_data_pos pre name [])) 0 in
  len version = 4 ->
  Forall wf_section ss ->
  Forall (fun s => custom_named name s = false) ss ->
  Forall wf_section pre ->
  Forall (fun s => custom_named name s = false) pre ->
  wf_section (Custom name []) ->
  getCustomSection absent name sv = Some (true, sv) /\
  getCustomSection present name sv = Some (true, found) /\
  (sv_empty sv = true ->
   sv_size sv = sv_size found /\ sv_bytes absent sv = sv_bytes present found) /\
  (name = name_str ->
   getFunctionNameIndex absent m = Some (true, m) /\
   getFunctionNameIndex present m = Some (true, m)).
Proof.
  intros absent present found Hv Hss Hn1 Hpre Hn2 Hwf.
  subst absent present found.
  split; [by apply getCustomSection_not_found|].
  split; [by rewrite getCustomSection_found|].
  split.
  - intros Hsv. assert (sv_size sv = 0) as Hsz by (by apply Z.eqb_eq).
    split; [done|]. unfold sv_bytes. cbn [sv_data sv_size]. rewrite Hsz.
    unfold sub. destruct (sv_data sv); by rewrite ?take_0.
  - intros ->. split; [by apply getFunctionNameIndex_absent|].
    unfold getFunctionNameIndex. fold name_str. by rewrite getCustomSection_found.
Qed.

Lemma C10_absent_and_empty_results_witness :
  getCustomSection absent_module name_str sv_default = Some (true, sv_default) /\
  getCustomSection empty_name_module name_str sv_default
    = Some (true, mk_sv (Some (custom_data_pos [Plain 1 [0]] name_str [])) 0) /\
  (sv_size sv_default = sv_size (mk_sv (Some (custom_data_pos [Plain 1 [0]] name_str [])) 0) /\
   sv_bytes absent_module sv_default
   = sv_bytes empty_name_module
       (mk_sv (Some (custom_data_pos [Plain 1 [0]] name_str [])) 0)) /\
  getFunctionNameIndex absent_module {[3 := [102]]} = Some (true, {[3 := [102]]}) /\
  getFunctionNameIndex empty_name_module {[3 := [102]]} = Some (true, {[3 := [102]]}).
Proof.
  destruct (C10_absent_and_empty_results example_version [Plain 1 [0]] [Plain 1 [0]]
              [10; 1; 0] name_str sv_default {[3 := [102]]})
    as (H1 & H2 & H3 & H4); [solve_wf ..|].
  split; [exact H1|]. split; [exact H2|].
  split; [apply H3; reflexivity | apply H4; reflexivity].
Defined.

(** * Properties beyond the claims *)

(** X1.  On a well-formed module, [getCustomSection] returns success and the
    range of the bytes that follow the name in the first custom section of
    the requested name: the range denotes exactly that data, whatever comes
    after the section, custom sections of the same name included. *)
Theorem X1_custom_section_payload version pre name data post ret :
  let bytecode :=
    wasm_header version ++ enc_sections pre ++ enc_section (Custom name data) ++ post in
  len version = 4 ->
  Forall wf_section pre ->
  Forall (fun s => custom_named name s = false) pre ->
  wf_section (Custom name data) ->
  exists sv,
    getCustomSection bytecode name ret = Some (true, sv) /\
    sv_size sv = len data /\
    sv_bytes bytecode sv = data.
Proof.
  intros bytecode Hv Hwf Hnm Hs.
  exists (mk_sv (Some (custom_data_pos pre name data)) (len data)).
  split; [by apply getCustomSection_found|]. split; [done|].
  unfold sv_bytes. cbn [sv_data sv_size]. by apply custom_data_sub.
Qed.

Lemma X1_custom_section_payload_witness :
  exists sv,
    getCustomSection
      (wasm_header example_version
       ++ enc_sections [Plain 1 [0]; Custom name_str [9]]
       ++ enc_section (Custom (bytes_of_string "hey") (bytes_of_string "hello"))
       ++ enc_section (Custom (bytes_of_string "hey") (bytes_of_string "bye")))
      (bytes_of_string "hey") sv_default = Some (true, sv) /\
    sv_size sv = len (bytes_of_string "hello") /\
    sv_bytes
      (wasm_header example_version
       ++ enc_sections [Plain 1 [0]; Custom name_str [9]]
       ++ enc_section (Custom (bytes_of_string "hey") (bytes_of_string "hello"))
       ++ enc_section (Custom (bytes_of_string "hey") (bytes_of_string "bye")))
      sv = bytes_of_string "hello".
Proof.
  apply (X1_custom_section_payload example_version [Plain 1 [0]; Custom name_str [9]]
           (bytes_of_string "hey") (bytes_of_string "hello")
           (enc_section (Custom (bytes_of_string "hey") (bytes_of_string "bye")))
           sv_default); solve_wf.
Defined.

(** X2.  When [parseVarint] succeeds, it has read continuation bytes and
    then one byte with a clear high bit: the cursor has moved by at least one
    byte, stands right after that byte and not past [end], and the value
    returned is a [u32] other than [0xFFFFFFFF]. *)
Theorem X2_varint_reads_to_first_terminator buf pos end_ ret pos' v :
  parseVarint buf pos end_ ret = Some (pos', v) ->
  pos < pos' <= end_ /\
  0 <= v < UINT32_MAX /\
  Z.testbit (byte_at buf (pos' - 1)) 7 = false /\
  (forall i, pos <= i < pos' - 1 -> Z.testbit (byte_at buf i) 7 = true).
Proof.
  unfold parseVarint. intros H. apply parseVarint_from_consumed in H.
  destruct H as (Hp & Hrest). split; [lia | done].
Qed.

Lemma X2_varint_reads_to_first_terminator_witness :
  0 < 3 <= 5 /\
  0 <= 624485 < UINT32_MAX /\
  Z.testbit (byte_at [229; 142; 38; 128; 1] (3 - 1)) 7 = false /\
  (forall i, 0 <= i < 3 - 1 -> Z.testbit (byte_at [229; 142; 38; 128; 1] i) 7 = true).
Proof.
  apply (X2_varint_reads_to_first_terminator [229; 142; 38; 128; 1] 0 5 0 3 624485).
  reflexivity.
Defined.

(** X3.  [parseVarint] adds to [ret]; it does not start from zero.  Decoding
    the standard encoding of a [u32] value [v] when [ret] holds [r] yields
    [r + v] modulo [2^32], and fails exactly when that sum is [0xFFFFFFFF]. *)
Theorem X3_varint_adds_to_ret v r pre post end_ :
  is_u32 v -> len pre + len (leb128 v) <= end_ ->
  parseVarint (pre ++ leb128 v ++ post) (len pre) end_ r =
    if wrap32 (r + v) =? UINT32_MAX then None
    else Some (len pre + len (leb128 v), wrap32 (r + v)).
Proof. intros. by apply parseVarint_leb128. Qed.

Lemma X3_varint_adds_to_ret_witness :
  parseVarint ([7] ++ leb128 300 ++ [9]) (len [7]) 4 23 =
    (if wrap32 (23 + 300) =? UINT32_MAX then None
     else Some (len [7] + len (leb128 300), wrap32 (23 + 300))) /\
  parseVarint ([] ++ leb128 4294967290 ++ []) (len []) 5 5 = None.
Proof.
  split.
  - apply (X3_varint_adds_to_ret 300 23 [7] [9] 4); solve_wf.
  - apply (X3_varint_adds_to_ret 4294967290 5 [] [] 5); solve_wf.
Defined.

(** X4.  A buffer of 8 bytes or more that does not start with the magic
    number is rejected by all four operations, and they leave their outputs
    as they were on entry ([getAbiVersion] sets the version to [Unknown]). *)
Theorem X4_wrong_magic_is_rejected bytecode name sv (m : gmap Z (list Z)) out :
  8 <= len bytecode ->
  sub bytecode 0 4 <> wasm_magic_number ->
  checkWasmHeader bytecode = false /\
  getAbiVersion bytecode = Some (false, Unknown) /\
  getCustomSection bytecode name sv = Some (false, sv) /\
  getFunctionNameIndex bytecode m = Some (false, m) /\
  getStrippedSource bytecode out = Some (false, out).
Proof.
  intros Hlen Hmagic.
  assert (checkWasmHeader bytecode = false) as Hh.
  { destruct (checkWasmHeader bytecode) eqn:Hc; [|done].
    apply checkWasmHeader_spec in Hc as [?|?]; [lia | done]. }
  split; [done|]. by apply bad_header_rejected.
Qed.

Lemma X4_wrong_magic_is_rejected_witness :
  checkWasmHeader [0; 97; 115; 110; 1; 0; 0; 0; 1; 1; 0] = false /\
  getAbiVersion [0; 97; 115; 110; 1; 0; 0; 0; 1; 1; 0] = Some (false, Unknown) /\
  getCustomSection [0; 97; 115; 110; 1; 0; 0; 0; 1; 1; 0] name_str sv_default
    = Some (false, sv_default) /\
  getFunctionNameIndex [0; 97; 115; 110; 1; 0; 0; 0; 1; 1; 0] {[1 := [97]]}
    = Some (false, {[1 := [97]]}) /\
  getStrippedSource [0; 97; 115; 110; 1; 0; 0; 0; 1; 1; 0] [5] = Some (false, [5]).
Proof.
  apply (X4_wrong_magic_is_rejected [0; 97; 115; 110; 1; 0; 0; 0; 1; 1; 0]
           name_str sv_default {[1 := [97]]} [5]); solve_wf.
Defined.

(** X5.  The four operations return on every input, well formed or not:
    each pass through a section loop moves the cursor forward, so the loops
    end before the buffer length is used up.  ([getFunctionNameIndex] is
    stated for buffers shorter than [2^64] bytes, the range of [size_t].) *)
Theorem X5_operations_return bytecode name sv (m : gmap Z (list Z)) out :
  len bytecode < 2 ^ 64 ->
  is_Some (getAbiVersion bytecode) /\
  is_Some (getCustomSection bytecode name sv) /\
  is_Some (getFunctionNameIndex bytecode m) /\
  is_Some (getStrippedSource bytecode out).
Proof.
  intros H64. repeat split.
  - apply getAbiVersion_total.
  - apply getCustomSection_total.
  - by apply getFunctionNameIndex_total.
  - apply getStrippedSource_total.
Qed.

Lemma X5_operations_return_witness :
  is_Some (getAbiVersion [0; 97; 115; 109; 1; 0; 0; 0; 0; 255; 255; 7; 1]) /\
  is_Some (getCustomSection [0; 97; 115; 109; 1; 0; 0; 0; 0; 255; 255; 7; 1]
             name_str sv_default) /\
  is_Some (getFunctionNameIndex [0; 97; 115; 109; 1; 0; 0; 0; 0; 255; 255; 7; 1] ∅) /\
  is_Some (getStrippedSource [0; 97; 115; 109; 1; 0; 0; 0; 0; 255; 255; 7; 1] []).
Proof.
  apply (X5_operations_return [0; 97; 115; 109; 1; 0; 0; 0; 0; 255; 255; 7; 1]
           name_str sv_default ∅ []).
  reflexivity.
Defined.

(** X6.  On a well-formed module, [getAbiVersion] returns success with the
    version announced by the first export of the first export section that
    is a function export under one of the three ABI names, whichever of the
    three it is, when the exports before it are passed over; the exports and
    the bytes after it are not looked at. *)
Theorem X6_first_abi_export_decides version pre es1 e es2 post v :
  len version = 4 ->
  Forall wf_section pre -> Forall (fun s => sec_type s <> 7) pre ->
  wf_section (export_section (es1 ++ e :: es2)) ->
  Forall passed_over es1 ->
  export_abi e = Some v ->
  getAbiVersion
    (wasm_header version ++ enc_sections pre
     ++ enc_section (export_section (es1 ++ e :: es2)) ++ post)
  = Some (true, v).
Proof.
  intros Hv Hwf Hty Hs H1 He.
  rewrite getAbiVersion_exports; try done.
  - by rewrite (first_abi_hit es1 e es2 v).
  - by apply (exports_ok_hit es1 e es2 v).
Qed.

Lemma X6_first_abi_export_decides_witness :
  getAbiVersion
    (wasm_header example_version ++ enc_sections [Plain 1 [0]; Custom name_str [5]]
     ++ enc_section (export_section
          ([mk_export (bytes_of_string "memory") 2 0;
            mk_export (bytes_of_string "proxy_abi_version_0_2_1") 3 1]
           ++ mk_export (bytes_of_string "proxy_abi_version_0_2_0") 0 4
           :: [mk_export (bytes_of_string "proxy_abi_version_0_1_0") 0 5]))
     ++ [255; 255])
  = Some (true, ProxyWasm_0_2_0).
Proof.
  apply (X6_first_abi_export_decides example_version [Plain 1 [0]; Custom name_str [5]]
           [mk_export (bytes_of_string "memory") 2 0;
            mk_export (bytes_of_string "proxy_abi_version_0_2_1") 3 1]
           (mk_export (bytes_of_string "proxy_abi_version_0_2_0") 0 4)
           [mk_export (bytes_of_string "proxy_abi_version_0_1_0") 0 5]
           [255; 255] ProxyWasm_0_2_0); solve_wf.
Defined.

(** X7.  [getAbiVersion] does not hold the export vector to the length the
    export section declares: with any declared length [L] that keeps the
    section inside the buffer, it gives the answer it gives for the section
    with its true length. *)
Theorem X7_export_section_length_is_not_checked version pre L es post :
  len version = 4 ->
  Forall wf_section pre -> Forall (fun s => sec_type s <> 7) pre ->
  wf_section (export_section es) ->
  exports_ok es ->
  0 <= L < UINT32_MAX -> L <= len (export_payload es) + len post ->
  getAbiVersion
    (wasm_header version ++ enc_sections pre
     ++ 7 :: leb128 L ++ export_payload es ++ post)
  = getAbiVersion
      (wasm_header version ++ enc_sections pre
       ++ enc_section (export_section es) ++ post).
Proof.
  intros Hv Hwf Hty Hs Hok HL HLfit.
  rewrite (getAbiVersion_exports version pre es post) by done.
  destruct Hs as [Hpl _]. cbn [export_section sec_payload] in Hpl.
  pose proof (exports_count_le es) as Hcnt.
  pose proof (leb128_length (Z.of_nat (length es))) as Hlc.
  pose proof (len_nonneg post) as Hp0.
  assert (len (export_payload es)
          = len (leb128 (Z.of_nat (length es))) + len (flat_map enc_export es)) as Hel
    by (unfold export_payload; by rewrite len_app).
  pose proof (getAbiVersion_export_vector version pre L (Z.of_nat (length es))
                (flat_map enc_export es ++ post)) as H.
  cbn zeta in H. unfold export_payload. rewrite <- !app_assoc.
  rewrite H; try done; try (rewrite ?len_app; lia).
  rewrite Nat2Z.id. f_equal.
  replace (wasm_header version ++ enc_sections pre
           ++ 7 :: leb128 L ++ leb128 (Z.of_nat (length es)))
    with ((wasm_header version ++ enc_sections pre ++ 7 :: leb128 L)
          ++ leb128 (Z.of_nat (length es))) by norm_app.
  apply exports_loop_first with (post := post); [norm_app | | done].
  norm_len. lia.
Qed.

Lemma X7_export_section_length_is_not_checked_witness :
  getAbiVersion
    (wasm_header example_version ++ enc_sections [Plain 1 [0]]
     ++ 7 :: leb128 0 ++ export_payload two_abi_exports ++ [10; 1; 0])
  = getAbiVersion
      (wasm_header example_version ++ enc_sections [Plain 1 [0]]
       ++ enc_section (export_section two_abi_exports) ++ [10; 1; 0]).
Proof.
  apply (X7_export_section_length_is_not_checked example_version [Plain 1 [0]] 0
           two_abi_exports [10; 1; 0]); solve_wf.
Defined.

(** X8.  On every input, a [false] from [getAbiVersion] comes with the
    version [Unknown]: a version other than [Unknown] is only ever returned
    with [true]. *)
Theorem X8_abi_failure_is_unknown bytecode v :
  getAbiVersion bytecode = Some (false, v) -> v = Unknown.
Proof.
  unfold getAbiVersion. destruct (negb (checkWasmHeader bytecode)); [congruence|].
  apply abi_loop_false.
Qed.

Lemma X8_abi_failure_is_unknown_witness : Unknown = Unknown.
Proof.
  apply (X8_abi_failure_is_unknown
           (wasm_header example_version ++ [7; 3; 1; 23]) Unknown).
  reflexivity.
Defined.

(** X9.  The index of an export that is passed over is decoded on top of
    the length of its name.  When the exports before it are passed over and
    its name length and index add up to [0xFFFFFFFF] modulo [2^32],
    [getAbiVersion] returns [false], although the module is well formed. *)
Theorem X9_export_index_skip_can_fail version pre es1 e es2 post :
  len version = 4 ->
  Forall wf_section pre -> Forall (fun s => sec_type s <> 7) pre ->
  wf_section (export_section (es1 ++ e :: es2)) ->
  Forall passed_over es1 ->
  export_abi e = None ->
  is_u32 (exp_index e) ->
  wrap32 (len (exp_name e) + exp_index e) = UINT32_MAX ->
  getAbiVersion
    (wasm_header version ++ enc_sections pre
     ++ enc_section (export_section (es1 ++ e :: es2)) ++ post)
  = Some (false, Unknown).
Proof.
  intros Hv Hwf Hty [Hpl _] H1 Hnone Hidx Hsum.
  cbn [export_section sec_payload] in Hpl.
  set (es := es1 ++ e :: es2) in *.
  pose proof (exports_count_le es) as Hcnt.
  pose proof (leb128_length (Z.of_nat (length es))) as Hlc.
  pose proof (len_nonneg post) as Hp0.
  assert (len (export_payload es)
          = len (leb128 (Z.of_nat (length es))) + len (flat_map enc_export es)) as Hel
    by (unfold export_payload; by rewrite len_app).
  assert (flat_map enc_export es
          = flat_map enc_export es1 ++ enc_export e ++ flat_map enc_export es2) as Hfm.
  { subst es. by rewrite flat_map_app. }
  pose proof (len_nonneg (flat_map enc_export es1)).
  pose proof (len_nonneg (flat_map enc_export es2)).
  pose proof (enc_export_len e) as Hee.
  pose proof (leb128_length (len (exp_name e))). pose proof (leb128_length (exp_index e)).
  pose proof (len_nonneg (exp_name e)).
  pose proof (getAbiVersion_export_vector version pre (len (export_payload es))
                (Z.of_nat (length es)) (flat_map enc_export es ++ post)) as Hreach.
  cbn zeta in Hreach. unfold enc_section. cbn [export_section sec_type sec_payload].
  unfold export_payload at 2.
  repeat first [rewrite <- app_assoc | progress cbn [app]].
  rewrite Hreach; try done; try (rewrite ?len_app; lia).
  rewrite Nat2Z.id. f_equal.
  set (P := wasm_header version ++ enc_sections pre
            ++ 7 :: leb128 (len (export_payload es))
            ++ leb128 (Z.of_nat (length es))).
  set (buf := wasm_header version ++ enc_sections pre
              ++ 7 :: leb128 (len (export_payload es))
              ++ leb128 (Z.of_nat (length es)) ++ flat_map enc_export es ++ post).
  assert (buf = P ++ flat_map enc_export es1
                ++ enc_export e ++ flat_map enc_export es2 ++ post) as Hbuf.
  { subst buf P. rewrite Hfm. norm_app. }
  assert (len buf = len P + len (flat_map enc_export es1) + len (enc_export e)
                    + len (flat_map enc_export es2) + len post) as Hlen.
  { rewrite Hbuf. norm_len. lia. }
  replace (length es) with (length es1 + S (length es2))%nat
    by (subst es; rewrite length_app; reflexivity).
  rewrite (exports_loop_skip es1 P (enc_export e ++ flat_map enc_export es2 ++ post));
    [| done | lia | done].
  replace (len P + len (flat_map enc_export es1))
    with (len (P ++ flat_map enc_export es1)) by (rewrite len_app; lia).
  apply exports_loop_skip_fails with (e := e) (post := flat_map enc_export es2 ++ post);
    try done.
  - rewrite Hbuf. norm_app.
  - rewrite len_app. lia.
  - apply (f_equal len) in Hfm. rewrite !len_app in Hfm. lia.
Qed.

Lemma X9_export_index_skip_can_fail_witness :
  getAbiVersion
    (wasm_header example_version ++ enc_sections [Plain 1 [0]]
     ++ enc_section (export_section
          ([mk_export (bytes_of_string "memory") 2 0]
           ++ mk_export (bytes_of_string "f") 0 4294967294
           :: [mk_export (bytes_of_string "proxy_abi_version_0_2_1") 0 1]))
     ++ [])
  = Some (false, Unknown).
Proof.
  apply (X9_export_index_skip_can_fail example_version [Plain 1 [0]]
           [mk_export (bytes_of_string "memory") 2 0]
           (mk_export (bytes_of_string "f") 0 4294967294)
           [mk_export (bytes_of_string "proxy_abi_version_0_2_1") 0 1] []); solve_wf.
Defined.

(** X10.  On a well-formed module with a custom section whose name contains
    [precompiled_], [getStrippedSource], started on an empty buffer, returns
    the header and the sections before the first such section unchanged,
    followed by the non-custom sections that come after it.  Every custom
    section after it is left out, also those whose name does not contain
    [precompiled_]. *)
Theorem X10_strip_keeps_only_plain_sections_after version pre c post :
  len version = 4 ->
  Forall wf_section (pre ++ c :: post) ->
  Forall (fun s => is_precompiled s = false) pre ->
  is_precompiled c = true ->
  getStrippedSource (wasm_header version ++ enc_sections (pre ++ c :: post)) [] =
    Some (true, wasm_header version ++ enc_sections pre
                ++ enc_sections (List.filter is_plain post)).
Proof. intros. by apply getStrippedSource_strip. Qed.

Lemma X10_strip_keeps_only_plain_sections_after_witness :
  getStrippedSource
    (wasm_header example_version
     ++ enc_sections ([Plain 1 [0]; Custom name_str [7]]
                      ++ Custom (bytes_of_string "precompiled_wavm") [1; 2]
                      :: [Custom (bytes_of_string "producers") [3]; Plain 10 [4];
                          Custom (bytes_of_string "precompiled_v8") [5]; Plain 11 [6]])) []
  = Some (true, wasm_header example_version
                ++ enc_sections [Plain 1 [0]; Custom name_str [7]]
                ++ enc_sections
                     (List.filter is_plain
                        [Custom (bytes_of_string "producers") [3]; Plain 10 [4];
                         Custom (bytes_of_string "precompiled_v8") [5]; Plain 11 [6]])).
Proof.
  apply (X10_strip_keeps_only_plain_sections_after example_version
           [Plain 1 [0]; Custom name_str [7]]
           (Custom (bytes_of_string "precompiled_wavm") [1; 2])
           [Custom (bytes_of_string "producers") [3]; Plain 10 [4];
            Custom (bytes_of_string "precompiled_v8") [5]; Plain 11 [6]]); solve_wf.
Defined.

(** X11.  [getStrippedSource] is idempotent on well-formed modules: it
    succeeds, and run on its own output it succeeds and returns that output
    unchanged. *)
Theorem X11_strip_is_idempotent version ss :
  len version = 4 ->
  Forall wf_section ss ->
  exists out,
    getStrippedSource (wasm_header version ++ enc_sections ss) [] = Some (true, out) /\
    getStrippedSource out [] = Some (true, out).
Proof. intros. by apply getStrippedSource_idempotent. Qed.

Lemma X11_strip_is_idempotent_witness :
  exists out,
    getStrippedSource
      (wasm_header example_version
       ++ enc_sections [Plain 1 [0]; Custom (bytes_of_string "precompiled_wavm") [1; 2];
                        Custom name_str [3]; Plain 10 [4]]) []
    = Some (true, out) /\
    getStrippedSource out [] = Some (true, out).
Proof.
  apply (X11_strip_is_idempotent example_version
           [Plain 1 [0]; Custom (bytes_of_string "precompiled_wavm") [1; 2];
            Custom name_str [3]; Plain 10 [4]]); solve_wf.
Defined.

(** X12.  The output buffer of [getStrippedSource] has to be empty on entry.
    When it is not, the operation on a well-formed module appends every
    non-custom section to what the buffer holds and nothing else: neither the
    header nor any custom section, precompiled or not. *)
Theorem X12_strip_into_nonempty_buffer version ss ret :
  len version = 4 ->
  Forall wf_section ss ->
  ret <> [] ->
  getStrippedSource (wasm_header version ++ enc_sections ss) ret =
    Some (true, ret ++ enc_sections (List.filter is_plain ss)).
Proof.
  intros Hv Hwf Hret. rewrite getStrippedSource_steps by done. cbn zeta.
  assert (is_nil ret = false) as Hnil by (by destruct ret).
  rewrite strip_steps_started by done. by rewrite is_nil_app_l.
Qed.

Lemma X12_strip_into_nonempty_buffer_witness :
  getStrippedSource
    (wasm_header example_version
     ++ enc_sections [Plain 1 [0]; Custom name_str [3]; Plain 10 [4]]) [42]
  = Some (true, [42] ++ enc_sections
                          (List.filter is_plain
                             [Plain 1 [0]; Custom name_str [3]; Plain 10 [4]])).
Proof.
  apply (X12_strip_into_nonempty_buffer example_version
           [Plain 1 [0]; Custom name_str [3]; Plain 10 [4]] [42]); solve_wf.
Defined.

(** X13.  After a strip no precompiled section is left to find: on a
    well-formed module [getStrippedSource] succeeds, and [getCustomSection]
    on its output, asked for any name that contains [precompiled_], returns
    success without writing the range. *)
Theorem X13_stripped_has_no_precompiled_section version ss name sv :
  len version = 4 ->
  Forall wf_section ss ->
  sv_find name (bytes_of_string "precompiled_") <> None ->
  exists out,
    getStrippedSource (wasm_header version ++ enc_sections ss) [] = Some (true, out) /\
    getCustomSection out name sv = Some (true, sv).
Proof.
  intros Hv Hwf Hname.
  exists (wasm_header version ++ enc_sections (stripped_sections ss)).
  split; [by apply getStrippedSource_sections|].
  apply getCustomSection_not_found; [done | by apply Forall_stripped |].
  eapply Forall_impl; [apply stripped_sections_are_clean|].
  intros s Hs. by apply custom_named_clean.
Qed.

Lemma X13_stripped_has_no_precompiled_section_witness :
  exists out,
    getStrippedSource
      (wasm_header example_version
       ++ enc_sections [Plain 1 [0]; Custom (bytes_of_string "precompiled_wavm") [1; 2];
                        Plain 10 [4]; Custom (bytes_of_string "precompiled_v8") [5]]) []
    = Some (true, out) /\
    getCustomSection out (bytes_of_string "precompiled_v8") sv_default
    = Some (true, sv_default).
Proof.
  apply (X13_stripped_has_no_precompiled_section example_version
           [Plain 1 [0]; Custom (bytes_of_string "precompiled_wavm") [1; 2];
            Plain 10 [4]; Custom (bytes_of_string "precompiled_v8") [5]]
           (bytes_of_string "precompiled_v8") sv_default); solve_wf.
Defined.

(** X14.  Stripping does not change the ABI version: on a well-formed module
    with an export section whose exports the loop gets through,
    [getAbiVersion] gives on the output of [getStrippedSource] the answer it
    gives on the module. *)
Theorem X14_strip_keeps_abi_version version s1 es s2 :
  let bytecode :=
    wasm_header version ++ enc_sections (s1 ++ export_section es :: s2) in
  len version = 4 ->
  Forall wf_section (s1 ++ export_section es :: s2) ->
  Forall (fun s => sec_type s <> 7) s1 ->
  exports_ok es ->
  exists out,
    getStrippedSource bytecode [] = Some (true, out) /\
    getAbiVersion out = getAbiVersion bytecode /\
    getAbiVersion bytecode = Some (true, first_abi es).
Proof.
  intros bytecode Hv Hwf Hty Hok.
  exists (wasm_header version
          ++ enc_sections (stripped_sections (s1 ++ export_section es :: s2))).
  split; [by apply getStrippedSource_sections|].
  pose proof Hwf as Hwf'.
  apply Forall_app in Hwf' as [Hw1 Hw2]. apply Forall_cons in Hw2 as [Hwe Hw2].
  assert (getAbiVersion bytecode = Some (true, first_abi es)) as Hm.
  { subst bytecode. rewrite enc_sections_app, enc_sections_cons.
    by apply getAbiVersion_exports. }
  split; [|done]. rewrite Hm.
  destruct (stripped_sections_keep s1 (export_section es) s2) as (s1' & s2' & -> & HP);
    [done|].
  rewrite enc_sections_app, enc_sections_cons.
  apply getAbiVersion_exports; try done; by apply HP.
Qed.

Lemma X14_strip_keeps_abi_version_witness :
  exists out,
    getStrippedSource
      (wasm_header example_version
       ++ enc_sections ([Plain 1 [0]; Custom (bytes_of_string "precompiled_wavm") [1; 2];
                         Custom name_str [3]]
                        ++ export_section two_abi_exports :: [Plain 10 [4]])) []
    = Some (true, out) /\
    getAbiVersion out =
      getAbiVersion
        (wasm_header example_version
         ++ enc_sections ([Plain 1 [0]; Custom (bytes_of_string "precompiled_wavm") [1; 2];
                           Custom name_str [3]]
                          ++ export_section two_abi_exports :: [Plain 10 [4]])) /\
    getAbiVersion
      (wasm_header example_version
       ++ enc_sections ([Plain 1 [0]; Custom (bytes_of_string "precompiled_wavm") [1; 2];
                         Custom name_str [3]]
                        ++ export_section two_abi_exports :: [Plain 10 [4]]))
    = Some (true, first_abi two_abi_exports).
Proof.
  apply (X14_strip_keeps_abi_version example_version
           [Plain 1 [0]; Custom (bytes_of_string "precompiled_wavm") [1; 2];
            Custom name_str [3]]
           two_abi_exports [Plain 10 [4]]); solve_wf.
Defined.

(** X15.  Stripping can lose the function names.  When no custom section
    before the first precompiled section is named "name", the output of
    [getStrippedSource] has no name section, whatever name sections follow
    in the module: [getFunctionNameIndex] on the output returns success and
    leaves the mapping as it was. *)
Theorem X15_strip_drops_later_name_section version pre c post (m : gmap Z (list Z)) :
  len version = 4 ->
  Forall wf_section (pre ++ c :: post) ->
  Forall (fun s => is_precompiled s = false) pre ->
  is_precompiled c = true ->
  Forall (fun s => custom_named name_str s = false) pre ->
  exists out,
    getStrippedSource (wasm_header version ++ enc_sections (pre ++ c :: post)) []
    = Some (true, out) /\
    getFunctionNameIndex out m = Some (true, m).
Proof.
  intros Hv Hwf Hpre Hc Hnm.
  exists (wasm_header version ++ enc_sections (pre ++ List.filter is_plain post)).
  split.
  - rewrite getStrippedSource_strip by done. by rewrite enc_sections_app.
  - apply Forall_app in Hwf as [Hw1 Hw2]. apply Forall_cons in Hw2 as [_ Hw2].
    apply getFunctionNameIndex_absent; [done | |].
    + apply Forall_app. split; [done | by apply Forall_filter_plain].
    + apply Forall_app. split; [done|].
      induction post as [|s post IH]; [done|]. cbn [List.filter].
      apply Forall_cons in Hw2 as [_ Hw2].
      destruct s; cbn [is_plain is_custom negb]; [by apply IH|].
      apply Forall_cons_2; [done | by apply IH].
Qed.

Lemma X15_strip_drops_later_name_section_witness :
  exists out,
    getStrippedSource
      (wasm_header example_version
       ++ enc_sections ([Plain 1 [0]]
                        ++ Custom (bytes_of_string "precompiled_wavm") [1; 2]
                        :: [Custom name_str (enc_subsections [FuncNames main_helper]);
                            Plain 10 [4]])) []
    = Some (true, out) /\
    getFunctionNameIndex out ∅ = Some (true, ∅).
Proof.
  apply (X15_strip_drops_later_name_section example_version [Plain 1 [0]]
           (Custom (bytes_of_string "precompiled_wavm") [1; 2])
           [Custom name_str (enc_subsections [FuncNames main_helper]); Plain 10 [4]] ∅);
    solve_wf.
Defined.

(** X16.  The output of [getStrippedSource], started on an empty buffer, is
    never longer than the input, on any input and whether the operation
    succeeds or fails. *)
Theorem X16_stripped_is_not_longer bytecode b out :
  getStrippedSource bytecode [] = Some (b, out) -> len out <= len bytecode.
Proof.
  unfold getStrippedSource. destruct (negb (checkWasmHeader bytecode)).
  - intros [= <- <-]. apply len_nonneg.
  - apply strip_loop_len; rewrite ?len_nil; try lia. apply len_nonneg.
Qed.

Lemma X16_stripped_is_not_longer_witness :
  len [0; 97; 115; 109; 1; 0; 0; 0; 1; 1; 0] <= len broken_module.
Proof.
  apply (X16_stripped_is_not_longer broken_module false
           [0; 97; 115; 109; 1; 0; 0; 0; 1; 1; 0]).
  reflexivity.
Defined.

(** X17.  On a well-formed module, [getFunctionNameIndex] adds the pairs of
    all function-name subsections of the first "name" section to the mapping
    it is given, in order, and skips the other subsections.  An index that
    the mapping holds on entry keeps its name; any other index gets the name
    of the first pair that carries it. *)
Theorem X17_names_are_added_to_the_mapping version pre subs post
    (m : gmap Z (list Z)) :
  let bytecode :=
    wasm_header version ++ enc_sections pre
    ++ enc_section (Custom name_str (enc_subsections subs)) ++ post in
  len version = 4 ->
  len bytecode < 2 ^ 64 ->
  Forall wf_section pre ->
  Forall (fun s => custom_named name_str s = false) pre ->
  wf_section (Custom name_str (enc_subsections subs)) ->
  Forall wf_subsection subs ->
  exists ret,
    getFunctionNameIndex bytecode m = Some (true, ret) /\
    forall k, ret !! k =
              match m !! k with
              | Some w => Some w
              | None => first_name k (flat_map sub_pairs subs)
              end.
Proof.
  intros bytecode Hv H64 Hwf Hnm Hs Hsubs.
  exists (insert_pairs (flat_map sub_pairs subs) m). split.
  - by apply getFunctionNameIndex_names.
  - intros k. apply insert_pairs_lookup.
Qed.

Lemma X17_names_are_added_to_the_mapping_witness :
  exists ret,
    getFunctionNameIndex
      (wasm_header example_version ++ enc_sections [Plain 1 [0]]
       ++ enc_section
            (Custom name_str
               (enc_subsections [OtherSub 0 [3; 109; 111; 100]; FuncNames main_helper;
                                 OtherSub 2 [0]; FuncNames dup_pairs]))
       ++ [10; 1; 0])
      {[2 := [120]]} = Some (true, ret) /\
    forall k, ret !! k =
              match ({[2 := [120]]} : gmap Z (list Z)) !! k with
              | Some w => Some w
              | None =>
                  first_name k
                    (flat_map sub_pairs
                       [OtherSub 0 [3; 109; 111; 100]; FuncNames main_helper;
                        OtherSub 2 [0]; FuncNames dup_pairs])
              end.
Proof.
  apply (X17_names_are_added_to_the_mapping example_version [Plain 1 [0]]
           [OtherSub 0 [3; 109; 111; 100]; FuncNames main_helper;
            OtherSub 2 [0]; FuncNames dup_pairs]
           [10; 1; 0] {[2 := [120]]}); solve_wf.
Defined.

(** X18.  A module cut short inside a section is rejected.  When the buffer
    holds a header, well-formed sections and then a proper, non-empty part of
    the encoding of one more section, [getStrippedSource] returns [false];
    so do [getCustomSection] and [getFunctionNameIndex] when the name they
    look for is not among the sections before the cut, leaving their output
    as it was, and [getAbiVersion] when no export section comes before the
    cut. *)
Theorem X18_truncated_module_is_rejected version ss s t t' sv
    (m : gmap Z (list Z)) :
  let bytecode := wasm_header version ++ enc_sections ss ++ t in
  len version = 4 ->
  Forall wf_section ss -> wf_section s ->
  enc_section s = t ++ t' -> t <> [] -> t' <> [] ->
  (exists out, getStrippedSource bytecode [] = Some (false, out)) /\
  (forall name,
     Forall (fun x => custom_named name x = false) ss ->
     getCustomSection bytecode name sv = Some (false, sv)) /\
  (Forall (fun x => custom_named name_str x = false) ss ->
   getFunctionNameIndex bytecode m = Some (false, m)) /\
  (Forall (fun x => sec_type x <> 7) ss ->
   getAbiVersion bytecode = Some (false, Unknown)).
Proof.
  intros bytecode Hv Hwf [HL _] Henc Ht Ht'.
  pose proof (wasm_header_len version Hv) as Hh.
  assert (0 < len t) as Htl
    by (destruct t; [done | rewrite len_cons; pose proof (len_nonneg t); lia]).
  pose proof (len_nonneg (enc_sections ss)) as Hss0.
  assert (bytecode = (wasm_header version ++ enc_sections ss) ++ t) as Hb
    by (subst bytecode; norm_app).
  assert (len bytecode = 8 + len (enc_sections ss) + len t) as Hlen
    by (rewrite Hb; norm_len; lia).
  assert (section_prologue bytecode (8 + len (enc_sections ss)) (len bytecode) = None)
    as Hpro.
  { replace (8 + len (enc_sections ss)) with (len (wasm_header version ++ enc_sections ss))
      by (rewrite len_app; lia).
    by apply (section_prologue_truncated bytecode _ s t t'). }
  assert ((8 + len (enc_sections ss) <? len bytecode) = true) as Hlt
    by (apply Z.ltb_lt; lia).
  assert (forall name sv',
            Forall (fun x => custom_named name x = false) ss ->
            getCustomSection bytecode name sv' = Some (false, sv')) as Hcustom.
  { intros name sv' Hnm. unfold getCustomSection.
    replace (checkWasmHeader bytecode) with true
      by (symmetry; apply checkWasmHeader_header).
    cbn [negb].
    destruct (custom_loop_skip name sv' ss (wasm_header version) t
                (length bytecode) bytecode) as (fuel' & Hf' & Heq); try done.
    { fold (len bytecode). lia. }
    rewrite Hh in Heq. rewrite Heq. destruct fuel' as [|fuel']; [lia|].
    by rewrite custom_loop_S, Hlt, Hpro. }
  split; [|split; [|split]].
  - unfold getStrippedSource.
    replace (checkWasmHeader bytecode) with true
      by (symmetry; apply checkWasmHeader_header).
    cbn [negb].
    destruct (strip_loop_steps ss (wasm_header version) t (length bytecode) bytecode [])
      as (fuel' & Hf' & Heq); try done.
    { fold (len bytecode). lia. }
    rewrite Hh in Heq. rewrite Heq. destruct fuel' as [|fuel']; [lia|].
    rewrite strip_loop_S, Hlt, Hpro. by eexists.
  - intros name. apply Hcustom.
  - intros Hnm. unfold getFunctionNameIndex. fold name_str.
    by rewrite (Hcustom name_str sv_default Hnm).
  - intros Hty. unfold getAbiVersion.
    replace (checkWasmHeader bytecode) with true
      by (symmetry; apply checkWasmHeader_header).
    cbn [negb].
    destruct (abi_loop_skip ss (wasm_header version) t (length bytecode) bytecode)
      as (fuel' & Hf' & Heq); try done.
    { fold (len bytecode). lia. }
    rewrite Hh in Heq. rewrite Heq. destruct fuel' as [|fuel']; [lia|].
    by rewrite abi_loop_S, Hlt, Hpro.
Qed.

Lemma X18_truncated_module_is_rejected_witness :
  (exists out,
     getStrippedSource
       (wasm_header example_version ++ enc_sections [Plain 1 [0]] ++ [0; 9; 3; 104; 101])
       [] = Some (false, out)) /\
  getCustomSection
    (wasm_header example_version ++ enc_sections [Plain 1 [0]] ++ [0; 9; 3; 104; 101])
    (bytes_of_string "hey") sv_default = Some (false, sv_default) /\
  getFunctionNameIndex
    (wasm_header example_version ++ enc_sections [Plain 1 [0]] ++ [0; 9; 3; 104; 101])
    ∅ = Some (false, ∅) /\
  getAbiVersion
    (wasm_header example_version ++ enc_sections [Plain 1 [0]] ++ [0; 9; 3; 104; 101])
  = Some (false, Unknown).
Proof.
  destruct (X18_truncated_module_is_rejected example_version [Plain 1 [0]]
              (Custom (bytes_of_string "hey") (bytes_of_string "hello"))
              [0; 9; 3; 104; 101] [121; 104; 101; 108; 108; 111] sv_default ∅)
    as (H1 & H2 & H3 & H4); [solve_wf ..|].
  split; [exact H1|]. split; [apply H2; solve_wf|].
  split; [apply H3; solve_wf | apply H4; solve_wf].
Defined.

(** X19.  [getCustomSection] does not check that the name of a custom
    section fits in the length the section declares.  When the first custom
    section of the requested name declares a length [L] shorter than its
    length-prefixed name, and the name still lies inside the buffer, the call
    returns [true] with a range that starts after the name and whose size is
    [2^64 - d], where [d] is the number of bytes by which the name overruns
    the section: the [size_t] image of a negative difference. *)
Theorem X19_name_longer_than_section version pre L name post sv :
  let bytecode :=
    wasm_header version ++ enc_sections pre ++ 0 :: leb128 L ++ enc_name name ++ post in
  len version = 4 ->
  Forall wf_section pre ->
  Forall (fun s => custom_named name s = false) pre ->
  0 <= L < len (enc_name name) -> len (enc_name name) < UINT32_MAX ->
  getCustomSection bytecode name sv =
    Some (true,
          mk_sv (Some (8 + len (enc_sections pre) + 1 + len (leb128 L)
                       + len (enc_name name)))
                (2 ^ 64 - (len (enc_name name) - L))).
Proof.
  intros buf Hv Hwf Hnm HL Hn. unfold getCustomSection.
  replace (checkWasmHeader buf) with true by (symmetry; apply checkWasmHeader_header).
  cbn [negb].
  pose proof (wasm_header_len version Hv) as Hh.
  pose proof (leb128_length L) as HlL. pose proof (leb128_length (len name)) as Hln.
  pose proof (len_nonneg name). pose proof (len_nonneg post).
  pose proof (len_nonneg (enc_sections pre)).
  pose proof (enc_name_len name) as Hnl.
  assert (len buf = 8 + len (enc_sections pre) + 1 + len (leb128 L)
                    + len (enc_name name) + len post) as Hlen.
  { subst buf. norm_len. lia. }
  destruct (custom_loop_skip name sv pre (wasm_header version)
              (0 :: leb128 L ++ enc_name name ++ post) (length buf) buf)
    as (fuel' & Hf' & Heq); try done.
  { fold (len buf). rewrite Hlen. norm_len. lia. }
  rewrite Hh in Heq. rewrite Heq. clear Heq.
  rewrite len_cons, !len_app in Hf'.
  destruct fuel' as [|fuel']; [lia|].
  rewrite custom_loop_S.
  destruct (Z.ltb_spec (8 + len (enc_sections pre)) (len buf)) as [_|?]; [|lia].
  rewrite (section_prologue_eq buf 0 L (wasm_header version ++ enc_sections pre)
             (enc_name name ++ post));
    [| subst buf; norm_app | norm_len; lia | lia | lia].
  rewrite Z.eqb_refl.
  destruct (custom_name_read buf
              ((wasm_header version ++ enc_sections pre) ++ 0 :: leb128 L) name [] post
              (8 + len (enc_sections pre) + 1 + len (leb128 L)) (len buf))
    as [Hpv Hsub].
  { subst buf. norm_app. } { norm_len. lia. } { lia. } { lia. }
  rewrite Hpv, Hsub.
  destruct (Z.gtb_spec (8 + len (enc_sections pre) + 1 + len (leb128 L)
                        + len (leb128 (len name)) + len name) (len buf)) as [?|_]; [lia|].
  rewrite Z.eqb_refl, bytes_eqb_refl. cbn [andb].
  replace (8 + len (enc_sections pre) + 1 + len (leb128 L)
           + len (leb128 (len name)) + len name)
    with (8 + len (enc_sections pre) + 1 + len (leb128 L) + len (enc_name name)) by lia.
  do 3 f_equal.
  unfold wrap64. symmetry. apply Z.mod_unique with (q := -1); [|lia].
  left. unfold UINT32_MAX in *. change (2 ^ 64) with 18446744073709551616. lia.
Qed.

Lemma X19_name_longer_than_section_witness :
  getCustomSection
    (wasm_header example_version ++ enc_sections [Plain 1 [0]]
     ++ 0 :: leb128 2 ++ enc_name (bytes_of_string "hey") ++ [1; 2; 3])
    (bytes_of_string "hey") sv_default
  = Some (true,
          mk_sv (Some (8 + len (enc_sections [Plain 1 [0]]) + 1 + len (leb128 2)
                       + len (enc_name (bytes_of_string "hey"))))
                (2 ^ 64 - (len (enc_name (bytes_of_string "hey")) - 2))).
Proof.
  apply (X19_name_longer_than_section example_version [Plain 1 [0]] 2
           (bytes_of_string "hey") [1; 2; 3] sv_default); solve_wf.
Defined.

(** X20.  The version field of the header is never read.  Two modules that
    differ only in the four bytes after the magic number get the same answer
    from [getAbiVersion], [getCustomSection] and [getFunctionNameIndex], on
    any content, well formed or not. *)
Theorem X20_version_field_is_ignored v1 v2 rest name sv (m : gmap Z (list Z)) :
  len v1 = 4 -> len v2 = 4 ->
  getAbiVersion (wasm_header v1 ++ rest) = getAbiVersion (wasm_header v2 ++ rest) /\
  getCustomSection (wasm_header v1 ++ rest) name sv
  = getCustomSection (wasm_header v2 ++ rest) name sv /\
  getFunctionNameIndex (wasm_header v1 ++ rest) m
  = getFunctionNameIndex (wasm_header v2 ++ rest) m.
Proof.
  intros H1 H2.
  pose proof (wasm_header_len v1 H1) as Hh1. pose proof (wasm_header_len v2 H2) as Hh2.
  assert (len (wasm_header v1) = len (wasm_header v2)) as Hh by lia.
  assert (length (wasm_header v1 ++ rest) = length (wasm_header v2 ++ rest)) as Hlen.
  { rewrite !length_app. unfold len in Hh. lia. }
  assert (len (wasm_header v1 ++ rest) = len (wasm_header v2 ++ rest)) as Hlen'
    by (unfold len; by rewrite Hlen).
  assert (forall name sv,
            getCustomSection (wasm_header v1 ++ rest) name sv
            = getCustomSection (wasm_header v2 ++ rest) name sv) as Hc.
  { intros n v. unfold getCustomSection.
    rewrite !checkWasmHeader_header, Hlen, Hlen'. cbn [negb].
    apply custom_loop_tail; [done | lia]. }
  split; [|split].
  - unfold getAbiVersion. rewrite !checkWasmHeader_header, Hlen, Hlen'. cbn [negb].
    apply abi_loop_tail; [done | lia].
  - apply Hc.
  - unfold getFunctionNameIndex. rewrite Hc.
    destruct (getCustomSection (wasm_header v2 ++ rest) (bytes_of_string "name")
                sv_default) as [[[] nsv]|] eqn:Hg; [|done|done].
    destruct (negb (sv_empty nsv)) eqn:He; [|done].
    unfold getCustomSection in Hg. rewrite checkWasmHeader_header in Hg.
    cbn [negb] in Hg.
    apply custom_loop_range in Hg as [->|(p & e & -> & Hp & _)]; [done|].
    cbn [sv_data sv_size default from_option id]. rewrite Hlen.
    apply name_loop_tail; [done | lia].
Qed.

Lemma X20_version_field_is_ignored_witness :
  getAbiVersion (wasm_header [1; 0; 0; 0] ++ enc_section (export_section two_abi_exports))
  = getAbiVersion (wasm_header [9; 9; 9; 9] ++ enc_section (export_section two_abi_exports)) /\
  getCustomSection
    (wasm_header [1; 0; 0; 0] ++ enc_section (export_section two_abi_exports))
    name_str sv_default
  = getCustomSection
      (wasm_header [9; 9; 9; 9] ++ enc_section (export_section two_abi_exports))
      name_str sv_default /\
  getFunctionNameIndex
    (wasm_header [1; 0; 0; 0] ++ enc_section (export_section two_abi_exports)) ∅
  = getFunctionNameIndex
      (wasm_header [9; 9; 9; 9] ++ enc_section (export_section two_abi_exports)) ∅.
Proof.
  apply (X20_version_field_is_ignored [1; 0; 0; 0] [9; 9; 9; 9]
           (enc_section (export_section two_abi_exports)) name_str sv_default ∅);
    reflexivity.
Defined.
